(** * wechat-summarizer: extraction, cleaning, batching and reporting

    A shallow embedding of the server-side pipeline of the repository:

    - [WeChatUrlExtractorService] (URL validation, page extraction with
      selector fallback lists, Chinese date parsing, content cleaning,
      windowed batch fetching);
    - [DeepSeekService.parseSummaryResponse] and its fallback heuristic;
    - the [POST /api/batch-summarize] route (validation, per-article
      summarisation and upserts, aggregate report).

    JavaScript strings are sequences of UTF-16 code units; [length],
    [substring], [trim] and the regular expressions of the source all work
    on code units, so a string is modelled as a [list N]. *)

From Stdlib Require Import NArith ZArith Ascii String Lia.
From stdpp Require Import base list gmap.

Local Open Scope N_scope.

(** ** JavaScript strings *)

Abbreviation jschar := N (only parsing).
Abbreviation jsstring := (list N) (only parsing).

(** An ASCII literal of the source as a JavaScript string. *)
Definition js (s : String.string) : jsstring :=
  List.map N_of_ascii (list_ascii_of_string s).

Definition LF : jschar := 10.
Definition SPACE : jschar := 32.

(** The characters matched by [\s] in a JavaScript regular expression, which
    are also exactly the characters removed by [String.prototype.trim]:
    TAB, LF, VT, FF, CR, SP, NBSP, U+1680, U+2000..U+200A, U+2028, U+2029,
    U+202F, U+205F, U+3000 and U+FEFF. *)
Definition isWhiteSpace (c : jschar) : bool :=
  ((9 <=? c) && (c <=? 13)) || (c =? 32) || (c =? 160) || (c =? 5760)
  || ((8192 <=? c) && (c <=? 8202)) || (c =? 8232) || (c =? 8233)
  || (c =? 8239) || (c =? 8287) || (c =? 12288) || (c =? 65279).

Definition jsstring_eqb (a b : jsstring) : bool := bool_decide (a = b).

(** [s.trimStart()], [s.trimEnd()] and [s.trim()]. *)
Fixpoint trimStart (s : jsstring) : jsstring :=
  match s with
  | [] => []
  | c :: rest => if isWhiteSpace c then trimStart rest else s
  end.

Definition trimEnd (s : jsstring) : jsstring := reverse (trimStart (reverse s)).

Definition trim (s : jsstring) : jsstring := trimEnd (trimStart s).

(** [s.substring(0, n)]. *)
Definition substring0 (n : nat) (s : jsstring) : jsstring := take n s.

(** [s.startsWith(p)]. *)
Fixpoint startsWith (p s : jsstring) : bool :=
  match p, s with
  | [], _ => true
  | _ :: _, [] => false
  | a :: p', b :: s' => (a =? b) && startsWith p' s'
  end.

(** JavaScript truthiness of a string: the empty string is falsy. *)
Definition truthy (s : jsstring) : bool :=
  match s with [] => false | _ => true end.

(** [a || b] on strings. *)
Definition or_else (a b : jsstring) : jsstring := if truthy a then a else b.

(** ** Content Cleaner ([cleanContent]) *)

Module Cleaner.

(** [s.replace(/\s+/g, ' ')]: every maximal run of white space becomes one
    space.  [inrun] records that the previous character was white space, so
    the run it belongs to has already been replaced. *)
Fixpoint collapse_from (inrun : bool) (s : jsstring) : jsstring :=
  match s with
  | [] => []
  | c :: rest =>
      if isWhiteSpace c
      then (if inrun then collapse_from true rest
            else SPACE :: collapse_from true rest)
      else c :: collapse_from false rest
  end.

Definition collapseWhitespace (s : jsstring) : jsstring := collapse_from false s.

(** The position, inside the maximal white-space run at the head of [s], of
    the last line feed: the place where the greedy [\s*] followed by [\n]
    of [/\n\s*\n/] ends after backtracking.  [None] when the run holds no
    line feed. *)
Fixpoint lastLFInRun (s : jsstring) : option nat :=
  match s with
  | [] => None
  | c :: rest =>
      if isWhiteSpace c then
        match lastLFInRun rest with
        | Some k => Some (S k)
        | None => if c =? LF then Some 0%nat else None
        end
      else None
  end.

(** [s.replace(/\n\s*\n/g, '\n\n')], scanning left to right; [skip] counts
    the characters still to be consumed by the match in progress. *)
Fixpoint normalizeBreaks_from (skip : nat) (s : jsstring) : jsstring :=
  match s with
  | [] => []
  | c :: rest =>
      match skip with
      | S k => normalizeBreaks_from k rest
      | O =>
          if c =? LF then
            match lastLFInRun rest with
            | Some k => LF :: LF :: normalizeBreaks_from (S k) rest
            | None => c :: normalizeBreaks_from 0 rest
            end
          else c :: normalizeBreaks_from 0 rest
      end
  end.

Definition normalizeBreaks (s : jsstring) : jsstring := normalizeBreaks_from 0 s.

Definition maxContentLength : nat := N.to_nat 15000.

(** [cleanContent]: the four steps in the order of the source. *)
Definition cleanContent (content : jsstring) : jsstring :=
  substring0 maxContentLength
    (trim (normalizeBreaks (collapseWhitespace content))).

End Cleaner.


(** ** Date Parser ([parseChineseDate]) *)

Module DateParser.

(** [\d] of a JavaScript regular expression without the [u] flag: the ten
    ASCII digits. *)
Definition isDigit (c : jschar) : bool := (48 <=? c) && (c <=? 57).

(** The three patterns of the source are sequences of literal characters and
    of capturing groups [(\d{lo,hi})]. *)
Inductive item : Type :=
  | Lit (c : jschar)
  | Digits (lo hi : nat).

Definition pattern := list item.

Definition NIAN : jschar := 24180.  (* 年 *)
Definition YUE : jschar := 26376.   (* 月 *)
Definition RI : jschar := 26085.    (* 日 *)
Definition HYPHEN : jschar := 45.

(** [/(\d{4})年(\d{1,2})月(\d{1,2})日/] *)
Definition pattern1 : pattern :=
  [Digits 4 4; Lit NIAN; Digits 1 2; Lit YUE; Digits 1 2; Lit RI].
(** [/(\d{4})-(\d{1,2})-(\d{1,2})/] *)
Definition pattern2 : pattern :=
  [Digits 4 4; Lit HYPHEN; Digits 1 2; Lit HYPHEN; Digits 1 2].
(** [/(\d{1,2})月(\d{1,2})日/] *)
Definition pattern3 : pattern :=
  [Digits 1 2; Lit YUE; Digits 1 2; Lit RI].

Definition patterns : list pattern := [pattern1; pattern2; pattern3].

(** How many of the first [hi] characters of [s] form a run of digits. *)
Fixpoint digitRun (hi : nat) (s : jsstring) : nat :=
  match hi, s with
  | S hi', c :: rest => if isDigit c then S (digitRun hi' rest) else O
  | _, _ => O
  end.

(** Greedy quantifier with backtracking: give the group [k] digits and run
    the rest of the pattern ([cont]); on failure retry with one digit fewer,
    down to [lo].  The result is the captures and the unread input. *)
Fixpoint backtrack (lo k : nat) (s : jsstring)
    (cont : jsstring → option (list jsstring * jsstring))
    : option (list jsstring * jsstring) :=
  match cont (drop k s) with
  | Some (caps, rest) => Some (take k s :: caps, rest)
  | None =>
      match k with
      | O => None
      | S k' => if (lo <=? k')%nat then backtrack lo k' s cont else None
      end
  end.

(** Match a pattern at the start of [s]. *)
Fixpoint matchHere (p : pattern) (s : jsstring)
    : option (list jsstring * jsstring) :=
  match p with
  | [] => Some ([], s)
  | Lit c :: p' =>
      match s with
      | a :: rest => if a =? c then matchHere p' rest else None
      | [] => None
      end
  | Digits lo hi :: p' =>
      let n := digitRun hi s in
      if (n <? lo)%nat then None else backtrack lo n s (matchHere p')
  end.

(** [s.match(p)] for a pattern without the [g] flag: the leftmost match, as
    the array of the matched text followed by the captures; [None] is the
    [null] of JavaScript. *)
Fixpoint regexMatch (p : pattern) (s : jsstring) : option (list jsstring) :=
  match matchHere p s with
  | Some (caps, rest) => Some (take (length s - length rest) s :: caps)
  | None =>
      match s with
      | [] => None
      | _ :: s' => regexMatch p s'
      end
  end.

(** [parseInt] on a run of ASCII digits. *)
Definition digitValue (c : jschar) : Z := Z.of_N (c - 48).

Definition parseInt (s : jsstring) : Z :=
  fold_left (λ acc c, 10 * acc + digitValue c)%Z s 0%Z.

(** A [Date] object: either built from the three arguments of
    [new Date(year, monthIndex, day)], or a reading of the clock
    ([new Date()]). *)
Inductive JsDate : Type :=
  | DateOf (year monthIndex day : Z)
  | ClockReading (t : N).

(** [m[i]] on a match array. *)
Definition group (m : list jsstring) (i : nat) : jsstring := nth i m [].

(** The [for (const pattern of patterns)] loop.  [currentYear] is
    [new Date().getFullYear()]. *)
Fixpoint parseWith (currentYear : Z) (ps : list pattern) (dateStr : jsstring)
    : option JsDate :=
  match ps with
  | [] => None
  | p :: ps' =>
      match regexMatch p dateStr with
      | Some m =>
          if (length m =? 4)%nat then
            Some (DateOf (parseInt (group m 1)) (parseInt (group m 2) - 1)
                         (parseInt (group m 3)))
          else if (length m =? 3)%nat then
            Some (DateOf currentYear (parseInt (group m 1) - 1)
                         (parseInt (group m 2)))
          else parseWith currentYear ps' dateStr
      | None => parseWith currentYear ps' dateStr
      end
  end.

Definition parseChineseDate (currentYear : Z) (dateStr : jsstring) : option JsDate :=
  parseWith currentYear patterns dateStr.

End DateParser.

(** ** The platform: URL parsing, HTTP, the parsed page *)

(** What [new URL(url)] exposes to [isWeChatArticleUrl]. *)
Record URL : Type := { hostname : jsstring; pathname : jsstring }.

(** The text content of the element picked inside a content container, as
    the extractor reads it after the [script], [style], [.rich_media_tool]
    and [.qr_code_pc_outer] sub-elements have been removed. *)
Record ContentElement : Type := {
  (** [$(elem).text()] of each [p], [div] and [section] descendant, in
      document order *)
  blocks : list jsstring;
  (** [contentElement.text()] *)
  fullText : jsstring
}.

(** A page loaded by cheerio, seen through the two queries of the source. *)
Record Document : Type := {
  (** [$(selector).first().text()]; the empty string when nothing matches *)
  firstText : String.string → jsstring;
  (** [$(selector).first()], when [contentElement.length > 0] *)
  firstElement : String.string → option ContentElement
}.

(** A thrown value: an [Error] object with its message, or anything else. *)
Inductive Thrown : Type :=
  | ErrorObject (message : jsstring)
  | OtherValue.

(** The outcome of [axios.get] followed by [cheerio.load]. *)
Inductive FetchOutcome : Type :=
  | Loaded (doc : Document)
  | Threw (e : Thrown).

(** Observable actions of the extractor on the outside world. *)
Inductive Event : Type :=
  | EvGet (url : jsstring)
  | EvDelay (ms : nat).

Definition Trace := list Event.

(** The external collaborators of the extractor.  A request may answer
    differently each time, so its outcome depends on the history. *)
Record Platform : Type := {
  parseURL : jsstring → option URL;        (* [None]: [new URL] throws *)
  httpGet : Trace → jsstring → FetchOutcome;
  currentYear : Z                          (* [new Date().getFullYear()] *)
}.

(** A computation that appends to the trace of events. *)
Definition IO (A : Type) : Type := Trace → A * Trace.

Definition ret {A} (a : A) : IO A := λ tr, (a, tr).
Definition bind {A B} (m : IO A) (k : A → IO B) : IO B :=
  λ tr, let '(a, tr') := m tr in k a tr'.
Definition emit (e : Event) : IO unit := λ tr, (tt, tr ++ [e]).
Definition history : IO Trace := λ tr, (tr, tr).

Notation "'let*' x ':=' m 'in' k" := (bind m (λ x, k))
  (at level 10, x name, m at level 100, k at level 200).

Fixpoint mapIO {A B} (f : A → IO B) (l : list A) : IO (list B) :=
  match l with
  | [] => ret []
  | a :: l' => let* b := f a in let* bs := mapIO f l' in ret (b :: bs)
  end.

(** ** Page Extractor *)

Module Extractor.
Import DateParser.

Record ExtractedWeChatArticle : Type := {
  url : jsstring;
  title : jsstring;
  content : jsstring;
  author : option jsstring;
  publishDate : option JsDate;
  error : option jsstring
}.

Definition MSG_INVALID_TITLE : jsstring := [26080; 25928; 38142; 25509].
  (* 无效链接 *)
Definition MSG_INVALID_LINK : jsstring :=
  [19981; 26159; 26377; 25928; 30340; 24494; 20449; 25991; 31456; 38142; 25509].
  (* 不是有效的微信文章链接 *)
Definition MSG_EXTRACT_FAILED : jsstring := [25552; 21462; 22833; 36133].
  (* 提取失败 *)
Definition MSG_UNKNOWN_ERROR : jsstring := [26410; 30693; 38169; 35823].
  (* 未知错误 *)
Definition MSG_TOO_SHORT : jsstring :=
  [25991; 31456; 20869; 23481; 25552; 21462; 22833; 36133; 25110; 20869;
   23481; 36807; 30701].
  (* 文章内容提取失败或内容过短 *)
Definition MSG_UNTITLED : jsstring := [26080; 26631; 39064].
  (* 无标题 *)

Definition titleSelectors : list String.string :=
  ["#activity-name"; ".rich_media_title"; "h1.rich_media_title";
   ".weui-article__title"; "h1"]%string.

Definition authorSelectors : list String.string :=
  [".rich_media_meta_text"; ".profile_nickname"; "#js_name";
   ".weui-article__author"]%string.

Definition dateSelectors : list String.string :=
  ["#publish_time"; ".rich_media_meta_text"; ".weui-article__time"]%string.

Definition contentSelectors : list String.string :=
  ["#js_content"; ".rich_media_content"; ".weui-article__bd"]%string.

(** The loop shared by [extractTitle] and [extractAuthor]: the first
    selector whose trimmed text is not empty wins. *)
Fixpoint firstNonEmptyText (doc : Document) (sels : list String.string) : jsstring :=
  match sels with
  | [] => []
  | sel :: sels' =>
      let t := trim (firstText doc sel) in
      if truthy t then t else firstNonEmptyText doc sels'
  end.

Definition extractTitle (doc : Document) : jsstring :=
  firstNonEmptyText doc titleSelectors.

Definition extractAuthor (doc : Document) : jsstring :=
  firstNonEmptyText doc authorSelectors.

Fixpoint publishDateFrom (year : Z) (doc : Document) (sels : list String.string)
    : option JsDate :=
  match sels with
  | [] => None
  | sel :: sels' =>
      let dateText := trim (firstText doc sel) in
      if truthy dateText then
        match parseChineseDate year dateText with
        | Some d => Some d
        | None => publishDateFrom year doc sels'
        end
      else publishDateFrom year doc sels'
  end.

Definition extractPublishDate (year : Z) (doc : Document) : option JsDate :=
  publishDateFrom year doc dateSelectors.

(** The [.each] callback of [extractContent], folded over the blocks. *)
Definition appendBlock (acc : jsstring) (elemText : jsstring) : jsstring :=
  let text := trim elemText in
  if truthy text && (10 <? length text)%nat then acc ++ text ++ [LF; LF] else acc.

Definition contentOfElement (el : ContentElement) : jsstring :=
  let content := fold_left appendBlock (blocks el) [] in
  if truthy content then content else trim (fullText el).

Fixpoint contentFrom (doc : Document) (sels : list String.string) : jsstring :=
  match sels with
  | [] => []
  | sel :: sels' =>
      match firstElement doc sel with
      | Some el => contentOfElement el
      | None => contentFrom doc sels'
      end
  end.

Definition extractContent (doc : Document) : jsstring :=
  contentFrom doc contentSelectors.

(** The [catch] block of [extractSingleWeChatArticle]. *)
Definition caught (u : jsstring) (e : Thrown) : ExtractedWeChatArticle :=
  {| url := u; title := MSG_EXTRACT_FAILED; content := [];
     author := None; publishDate := None;
     error := Some (match e with
                    | ErrorObject message => message
                    | OtherValue => MSG_UNKNOWN_ERROR
                    end) |}.

(** The body of the [try] block once the page is loaded. *)
Definition extractFromDocument (year : Z) (u : jsstring) (doc : Document)
    : ExtractedWeChatArticle :=
  let title := extractTitle doc in
  let author := extractAuthor doc in
  let publishDate := extractPublishDate year doc in
  let content := extractContent doc in
  if negb (truthy content) || (length content <? 50)%nat
  then caught u (ErrorObject MSG_TOO_SHORT)
  else {| url := u; title := or_else title MSG_UNTITLED;
          content := Cleaner.cleanContent content;
          author := Some author; publishDate := publishDate;
          error := None |}.

Definition extractSingleWeChatArticle (P : Platform) (u : jsstring)
    : IO ExtractedWeChatArticle :=
  let* tr := history in
  let* _ := emit (EvGet u) in
  match httpGet P tr u with
  | Loaded doc => ret (extractFromDocument (currentYear P) u doc)
  | Threw e => ret (caught u e)
  end.

End Extractor.

(** ** Batch Fetcher *)

Module Fetcher.
Import Extractor.

Definition WECHAT_HOST : jsstring := js "mp.weixin.qq.com".
Definition ARTICLE_PREFIX : jsstring := js "/s/".

(** [isWeChatArticleUrl]: [false] when [new URL] throws. *)
Definition isWeChatArticleUrl (P : Platform) (u : jsstring) : bool :=
  match parseURL P u with
  | Some urlObj =>
      jsstring_eqb (hostname urlObj) WECHAT_HOST
      && startsWith ARTICLE_PREFIX (pathname urlObj)
  | None => false
  end.

(** The entry pushed for a URL that fails the validation. *)
Definition invalidResult (u : jsstring) : ExtractedWeChatArticle :=
  {| url := u; title := MSG_INVALID_TITLE; content := [];
     author := None; publishDate := None; error := Some MSG_INVALID_LINK |}.

(** An element of the array of [Promise.allSettled]. *)
Inductive Settled (A : Type) : Type :=
  | Fulfilled (value : A)
  | Rejected (reason : Thrown).
Arguments Fulfilled {A} value.
Arguments Rejected {A} reason.

(** The promise of [extractSingleWeChatArticle]: the whole body of that
    function sits in a [try] whose [catch] returns, so it always fulfils. *)
Definition extractPromise (P : Platform) (u : jsstring)
    : IO (Settled ExtractedWeChatArticle) :=
  let* v := extractSingleWeChatArticle P u in ret (Fulfilled v).

(** [result.reason?.message || '未知错误'] *)
Definition reasonMessage (reason : Thrown) : jsstring :=
  match reason with
  | ErrorObject message => or_else message MSG_UNKNOWN_ERROR
  | OtherValue => MSG_UNKNOWN_ERROR
  end.

(** The [batchResults.forEach((result, index) => ...)] of the source. *)
Fixpoint pushSettled (batch : list jsstring) (index : nat)
    (batchResults : list (Settled ExtractedWeChatArticle))
    (results : list ExtractedWeChatArticle) : list ExtractedWeChatArticle :=
  match batchResults with
  | [] => results
  | result :: more =>
      let entry :=
        match result with
        | Fulfilled value => value
        | Rejected reason =>
            {| url := nth index batch []; title := MSG_EXTRACT_FAILED;
               content := []; author := None; publishDate := None;
               error := Some (reasonMessage reason) |}
        end in
      pushSettled batch (S index) more (results ++ [entry])
  end.

Definition concurrencyLimit : nat := 2.
Definition windowDelay : nat := 3000.

(** The [for (let i = 0; i < validUrls.length; i += concurrencyLimit)] loop.
    [fuel] bounds the number of iterations; [length validUrls] is always
    enough (see [windowLoop_windows]). *)
Fixpoint windowLoop (P : Platform) (fuel : nat) (validUrls : list jsstring)
    (i : nat) (results : list ExtractedWeChatArticle)
    : IO (list ExtractedWeChatArticle) :=
  match fuel with
  | O => ret results
  | S fuel' =>
      if (i <? length validUrls)%nat then
        let batch := take concurrencyLimit (drop i validUrls) in
        let* batchResults := mapIO (extractPromise P) batch in
        let results' := pushSettled batch 0 batchResults results in
        let* _ := (if (i + concurrencyLimit <? length validUrls)%nat
                   then emit (EvDelay windowDelay) else ret tt) in
        windowLoop P fuel' validUrls (i + concurrencyLimit) results'
      else ret results
  end.

Definition extractBatchWeChatArticles (P : Platform) (urls : list jsstring)
    : IO (list ExtractedWeChatArticle) :=
  let validUrls := List.filter (isWeChatArticleUrl P) urls in
  let invalidUrls := List.filter (λ u, negb (isWeChatArticleUrl P u)) urls in
  let results := List.map invalidResult invalidUrls in
  windowLoop P (length validUrls) validUrls 0 results.

End Fetcher.

(** ** Summarizer Client: parsing the answer of the model *)

Module Summarizer.

(** A JSON value.  Numbers only matter here through their truthiness. *)
#[warnings="-register-all"]
Inductive Json : Type :=
  | JNull
  | JBool (b : bool)
  | JNumber (z : Z)
  | JString (s : jsstring)
  | JArray (items : list Json)
  | JObject (members : list (jsstring * Json)).

Definition jsonTruthy (v : Json) : bool :=
  match v with
  | JNull => false
  | JBool b => b
  | JNumber z => negb (z =? 0)%Z
  | JString s => truthy s
  | JArray _ | JObject _ => true
  end.

(** [parsed.key]: the last member with that name wins, as in [JSON.parse];
    [None] is [undefined]. *)
Fixpoint property (members : list (jsstring * Json)) (key : jsstring) : option Json :=
  match members with
  | [] => None
  | (k, v) :: more =>
      match property more key with
      | Some v' => Some v'
      | None => if jsstring_eqb k key then Some v else None
      end
  end.

(** [parsed.key || dflt] *)
Definition propertyOr (members : list (jsstring * Json)) (key : String.string)
    (dflt : Json) : Json :=
  match property members (js key) with
  | Some v => if jsonTruthy v then v else dflt
  | None => dflt
  end.

(** The fields are whatever the answer holds: TypeScript does not check
    them at run time. *)
Record SummaryResult : Type := {
  content : Json;
  keyPoints : Json;
  sentiment : Json;
  category : Json
}.

Definition LBRACE : jschar := 123.
Definition RBRACE : jschar := 125.
Definition UNCATEGORIZED : jsstring := [26410; 20998; 31867].  (* 未分类 *)
Definition ELLIPSIS : jsstring := js "...".

(** The index of the last occurrence of [c] in [s]. *)
Fixpoint lastIndexOf (c : jschar) (s : jsstring) : option nat :=
  match s with
  | [] => None
  | a :: rest =>
      match lastIndexOf c rest with
      | Some k => Some (S k)
      | None => if a =? c then Some O else None
      end
  end.

(** [response.match(/\{[\s\S]*\}/)]: the text from the first opening brace
    to the last closing brace after it. *)
Fixpoint jsonMatch (response : jsstring) : option jsstring :=
  match response with
  | [] => None
  | c :: rest =>
      if c =? LBRACE then
        match lastIndexOf RBRACE rest with
        | Some k => Some (c :: take (S k) rest)
        | None => None
        end
      else jsonMatch rest
  end.

(** [s.split('\n')] *)
Fixpoint splitLines (s : jsstring) : list jsstring :=
  match s with
  | [] => [[]]
  | c :: rest =>
      if c =? LF then [] :: splitLines rest
      else match splitLines rest with
           | [] => [[c]]
           | line :: lines => (c :: line) :: lines
           end
  end.

(** [lines.join(sep)] *)
Fixpoint join (sep : jsstring) (lines : list jsstring) : jsstring :=
  match lines with
  | [] => []
  | [line] => line
  | line :: more => line ++ sep ++ join sep more
  end.

Definition fallbackParsing (response : jsstring) : SummaryResult :=
  let lines := List.filter (λ line, truthy (trim line)) (splitLines response) in
  {| content := JString (substring0 200 (join [SPACE] (take 3 lines)) ++ ELLIPSIS);
     keyPoints := JArray (List.map JString (take 3 lines));
     sentiment := JString (js "neutral");
     category := JString UNCATEGORIZED |}.

(** [parseSummaryResponse].  [JSON_parse] is [JSON.parse] on a text that
    starts with an opening brace: it throws ([None]) or yields an object,
    given by its members. *)
Definition parseSummaryResponse
    (JSON_parse : jsstring → option (list (jsstring * Json)))
    (response : jsstring) : SummaryResult :=
  match jsonMatch response with
  | Some text =>
      match JSON_parse text with
      | Some parsed =>
          {| content := propertyOr parsed "summary" (JString []);
             keyPoints := propertyOr parsed "keyPoints" (JArray []);
             sentiment := propertyOr parsed "sentiment" (JString (js "neutral"));
             category := propertyOr parsed "category" (JString UNCATEGORIZED) |}
      | None => fallbackParsing response
      end
  | None => fallbackParsing response
  end.

End Summarizer.

(** ** Batch Orchestrator ([POST /api/batch-summarize]) *)

Module Orchestrator.
Import DateParser Summarizer.

(** The outcome of the request to the model inside [summarizeArticle]: the
    text of the answer, or a failure with its rendering [`${error}`]. *)
Inductive LlmOutcome : Type :=
  | LlmText (aiResponse : jsstring)
  | LlmFails (rendering : jsstring).

Inductive PrismaCall : Type := UpsertAccount | UpsertArticle | UpsertSummary.

(** The two object literals of [prisma.article.upsert] are both evaluated,
    each with its own [new Date()]. *)
Inductive UpsertBranch : Type := OnUpdate | OnCreate.

(** The collaborators of the route; [k] is the position of the article in
    the list returned by the Batch Fetcher. *)
Record Services : Type := {
  platform : Platform;
  JSON_parse : jsstring → option (list (jsstring * Json));
  llm : nat → jsstring → jsstring → LlmOutcome;
  prismaFault : nat → PrismaCall → option Thrown;
  clock : nat → UpsertBranch → N
}.

Record AccountRow : Type := {
  accountRowId : nat;
  accountRowName : jsstring;
  accountDisplayName : jsstring;
  accountDescription : jsstring
}.

Record ArticleRow : Type := {
  articleId : nat;
  articleTitle : jsstring;
  articleContent : jsstring;
  articleUrl : jsstring;
  articlePublishDate : JsDate;
  articleAuthor : jsstring;
  articleAccountId : nat
}.

(** [keyPoints] is stored as [JSON.stringify(summaryResult.keyPoints)]; the
    row keeps the value that text serialises. *)
Record SummaryRow : Type := {
  summaryArticleId : nat;
  summaryContent : Json;
  summaryKeyPoints : Json;
  summarySentiment : Json;
  summaryCategory : Json
}.

(** The three tables the route writes, each indexed by its unique key. *)
Record Db : Type := {
  accounts : gmap (list N) AccountRow;
  articles : gmap (list N) ArticleRow;
  summaries : gmap nat SummaryRow;
  nextId : nat
}.

Definition emptyDb : Db :=
  {| accounts := ∅; articles := ∅; summaries := ∅; nextId := 0 |}.

Definition DEFAULT_ACCOUNT : jsstring := [25209; 37327; 23548; 20837].
  (* 批量导入 *)
Definition ACCOUNT_DESCRIPTION : jsstring :=
  [36890; 36807; 25209; 37327; 85; 82; 76; 23548; 20837; 21019; 24314].
  (* 通过批量URL导入创建 *)
Definition MSG_SUMMARY_FAILED : jsstring := [24635; 32467; 22833; 36133; 58; 32].
  (* 总结失败: *)
Definition MSG_NEED_URLS : jsstring :=
  [35831; 25552; 20379; 26377; 25928; 30340; 85; 82; 76; 25968; 32452].
  (* 请提供有效的URL数组 *)
Definition MSG_TOO_MANY : jsstring :=
  [21333; 27425; 26368; 22810; 22788; 29702; 50; 48; 20010; 85; 82; 76].
  (* 单次最多处理20个URL *)

(** [prisma.weChatAccount.upsert] with an empty [update]. *)
Definition upsertAccount (d : Db) (name : jsstring) : AccountRow * Db :=
  match accounts d !! name with
  | Some row => (row, d)
  | None =>
      let row := {| accountRowId := nextId d; accountRowName := name;
                    accountDisplayName := name;
                    accountDescription := ACCOUNT_DESCRIPTION |} in
      (row, {| accounts := <[name := row]> (accounts d);
               articles := articles d; summaries := summaries d;
               nextId := S (nextId d) |})
  end.

(** The data of either branch of [prisma.article.upsert]. *)
Record ArticleData : Type := {
  dataTitle : jsstring;
  dataContent : jsstring;
  dataPublishDate : JsDate;
  dataAuthor : jsstring;
  dataAccountId : nat
}.

(** [article.publishDate || new Date()] and [article.author || accountName]
    as written in both object literals. *)
Definition articleData (sv : Services) (k : nat) (branch : UpsertBranch)
    (accountName : jsstring) (accountId : nat)
    (article : Extractor.ExtractedWeChatArticle) : ArticleData :=
  {| dataTitle := Extractor.title article;
     dataContent := Extractor.content article;
     dataPublishDate :=
       match Extractor.publishDate article with
       | Some d => d
       | None => ClockReading (clock sv k branch)
       end;
     dataAuthor :=
       match Extractor.author article with
       | Some a => or_else a accountName
       | None => accountName
       end;
     dataAccountId := accountId |}.

(** [prisma.article.upsert({ where: { url }, update, create })] *)
Definition upsertArticle (d : Db) (u : jsstring) (update create : ArticleData)
    : ArticleRow * Db :=
  match articles d !! u with
  | Some old =>
      let row := {| articleId := articleId old;
                    articleTitle := dataTitle update;
                    articleContent := dataContent update;
                    articleUrl := articleUrl old;
                    articlePublishDate := dataPublishDate update;
                    articleAuthor := dataAuthor update;
                    articleAccountId := dataAccountId update |} in
      (row, {| accounts := accounts d; articles := <[u := row]> (articles d);
               summaries := summaries d; nextId := nextId d |})
  | None =>
      let row := {| articleId := nextId d;
                    articleTitle := dataTitle create;
                    articleContent := dataContent create;
                    articleUrl := u;
                    articlePublishDate := dataPublishDate create;
                    articleAuthor := dataAuthor create;
                    articleAccountId := dataAccountId create |} in
      (row, {| accounts := accounts d; articles := <[u := row]> (articles d);
               summaries := summaries d; nextId := S (nextId d) |})
  end.

(** [prisma.summary.upsert]: both branches write the same four fields. *)
Definition upsertSummary (d : Db) (aid : nat) (r : SummaryResult) : Db :=
  let row := {| summaryArticleId := aid; summaryContent := content r;
                summaryKeyPoints := keyPoints r;
                summarySentiment := sentiment r;
                summaryCategory := category r |} in
  {| accounts := accounts d; articles := articles d;
     summaries := <[aid := row]> (summaries d); nextId := nextId d |}.

(** [summarizeArticle]: every failure is rethrown as an [Error]. *)
Definition summarizeArticle (sv : Services) (k : nat) (title content : jsstring)
    : SummaryResult + Thrown :=
  match llm sv k title content with
  | LlmText aiResponse => inl (parseSummaryResponse (JSON_parse sv) aiResponse)
  | LlmFails rendering =>
      inr (ErrorObject (js "Failed to summarize article: " ++ rendering))
  end.

Record ResultEntry : Type := {
  entryUrl : jsstring;
  entryTitle : jsstring;
  entrySummary : option SummaryResult;
  entryError : option jsstring
}.

(** The mutable state of the handler: the store, the [results] array, the
    two counters and the number of one-second pauses taken. *)
Record State : Type := {
  db : Db;
  results : list ResultEntry;
  successCount : nat;
  failCount : nat;
  pauses : nat
}.

Definition failureEntry (article : Extractor.ExtractedWeChatArticle)
    (message : jsstring) : ResultEntry :=
  {| entryUrl := Extractor.url article; entryTitle := Extractor.title article;
     entrySummary := None; entryError := Some message |}.

(** The [catch] block of the loop body, then the pause after it. *)
Definition summaryFailed (st : State) (d : Db)
    (article : Extractor.ExtractedWeChatArticle) (e : Thrown) : State :=
  let message := match e with
                 | ErrorObject m => m
                 | OtherValue => Extractor.MSG_UNKNOWN_ERROR
                 end in
  {| db := d;
     results := results st ++ [failureEntry article (MSG_SUMMARY_FAILED ++ message)];
     successCount := successCount st; failCount := S (failCount st);
     pauses := S (pauses st) |}.

(** [if (article.error)]: an absent or empty error is falsy. *)
Definition hasError (article : Extractor.ExtractedWeChatArticle) : bool :=
  match Extractor.error article with
  | Some e => truthy e
  | None => false
  end.

(** One iteration of [for (const article of extractedArticles)]. *)
Definition processArticle (sv : Services) (accountName : jsstring) (k : nat)
    (article : Extractor.ExtractedWeChatArticle) (st : State) : State :=
  if hasError article then
    {| db := db st;
       results := results st
         ++ [failureEntry article (default [] (Extractor.error article))];
       successCount := successCount st; failCount := S (failCount st);
       pauses := pauses st |}
  else
    match summarizeArticle sv k (Extractor.title article) (Extractor.content article) with
    | inr e => summaryFailed st (db st) article e
    | inl summaryResult =>
        match prismaFault sv k UpsertAccount with
        | Some e => summaryFailed st (db st) article e
        | None =>
            let '(account, d1) := upsertAccount (db st) accountName in
            match prismaFault sv k UpsertArticle with
            | Some e => summaryFailed st d1 article e
            | None =>
                let '(savedArticle, d2) :=
                  upsertArticle d1 (Extractor.url article)
                    (articleData sv k OnUpdate accountName (accountRowId account) article)
                    (articleData sv k OnCreate accountName (accountRowId account) article) in
                match prismaFault sv k UpsertSummary with
                | Some e => summaryFailed st d2 article e
                | None =>
                    {| db := upsertSummary d2 (articleId savedArticle) summaryResult;
                       results := results st
                         ++ [{| entryUrl := Extractor.url article;
                                entryTitle := Extractor.title article;
                                entrySummary := Some summaryResult;
                                entryError := None |}];
                       successCount := S (successCount st);
                       failCount := failCount st;
                       pauses := S (pauses st) |}
                end
            end
        end
    end.

Fixpoint processAll (sv : Services) (accountName : jsstring) (k : nat)
    (extractedArticles : list Extractor.ExtractedWeChatArticle) (st : State) : State :=
  match extractedArticles with
  | [] => st
  | article :: more =>
      processAll sv accountName (S k) more
        (processArticle sv accountName k article st)
  end.

(** [req.body]: [urls] is an array or anything else (absent, not an array);
    [accountName] may be absent. *)
Inductive UrlsField : Type :=
  | NotAnArray
  | UrlsArray (urls : list jsstring).

Record Body : Type := {
  bodyUrls : UrlsField;
  bodyAccountName : option jsstring
}.

Record BatchSummarizeResponse : Type := {
  success : bool;
  reportResults : list ResultEntry;
  totalProcessed : nat;
  reportSuccessCount : nat;
  reportFailCount : nat
}.

Inductive HttpResponse : Type :=
  | Status400 (message : jsstring)
  | Status200 (report : BatchSummarizeResponse).

(** [router.post('/')]: the response, the store after the request and the
    trace of the extractor. *)
Definition postBatchSummarize (sv : Services) (body : Body) (d : Db)
    : IO (HttpResponse * Db) :=
  let accountName := default DEFAULT_ACCOUNT (bodyAccountName body) in
  match bodyUrls body with
  | NotAnArray => ret (Status400 MSG_NEED_URLS, d)
  | UrlsArray urls =>
      if (length urls =? 0)%nat then ret (Status400 MSG_NEED_URLS, d)
      else if (20 <? length urls)%nat then ret (Status400 MSG_TOO_MANY, d)
      else
        let* extractedArticles :=
          Fetcher.extractBatchWeChatArticles (platform sv) urls in
        let st := processAll sv accountName 0 extractedArticles
                    {| db := d; results := []; successCount := 0;
                       failCount := 0; pauses := 0 |} in
        ret (Status200 {| success := true; reportResults := results st;
                          totalProcessed := length urls;
                          reportSuccessCount := successCount st;
                          reportFailCount := failCount st |}, db st)
  end.

End Orchestrator.

(** ** Summarizer Client: the batch helper ([batchSummarize]) *)

Module BatchSummarizer.
Import Summarizer Orchestrator.

(** An element of the [articles] argument. *)
Record ArticleInput : Type := {
  inputId : jsstring;
  inputTitle : jsstring;
  inputContent : jsstring
}.

(** The [results] map under construction and the number of one-second
    pauses taken so far. *)
Record Progress : Type := {
  summarized : gmap (list N) SummaryResult;
  waits : nat
}.

(** The body of [for (const article of articles)]: the pause follows
    [results.set] inside the [try], so a failed call takes none. *)
Definition summarizeOne (sv : Services) (k : nat) (article : ArticleInput)
    (acc : Progress) : Progress :=
  match summarizeArticle sv k (inputTitle article) (inputContent article) with
  | inl summary =>
      {| summarized := <[inputId article := summary]> (summarized acc);
         waits := S (waits acc) |}
  | inr _ => acc
  end.

Fixpoint batchSummarizeFrom (sv : Services) (k : nat)
    (articles : list ArticleInput) (acc : Progress) : Progress :=
  match articles with
  | [] => acc
  | article :: more =>
      batchSummarizeFrom sv (S k) more (summarizeOne sv k article acc)
  end.

Definition batchSummarize (sv : Services) (articles : list ArticleInput)
    : Progress :=
  batchSummarizeFrom sv 0 articles {| summarized := ∅; waits := 0 |}.

End BatchSummarizer.

(** ** The form of the client ([handleSubmit]) *)

Module Client.
Import Summarizer Orchestrator.

  (* 批量导入 *)











End Client.

(** ** The history route ([GET /api/batch-summarize/history]): paging *)

Module History.

(** The value of a character as a digit of radix 10 or 16. *)
Definition digitOf (radix : Z) (c : jschar) : option Z :=
  if (48 <=? c) && (c <=? 57) then Some (Z.of_N (c - 48))
  else if (radix =? 16)%Z then
    if (97 <=? c) && (c <=? 102) then Some (Z.of_N (c - 87))
    else if (65 <=? c) && (c <=? 70) then Some (Z.of_N (c - 55))
    else None
  else None.

(** The value of the longest prefix of digits; [acc] is the value read so
    far, [None] while no digit has been read. *)
Fixpoint digitsValue (radix : Z) (s : jsstring) (acc : option Z) : option Z :=
  match s with
  | [] => acc
  | c :: rest =>
      match digitOf radix c with
      | Some v => digitsValue radix rest (Some (radix * default 0%Z acc + v)%Z)
      | None => acc
      end
  end.

(** [parseInt(s)] without a radix: leading white space, a sign, the prefix
    [0x] or [0X] for radix 16, then as many digits as there are; [None] is
    [NaN].  The value is the integer read, which is also the number
    JavaScript returns as long as it stays below 2^53. *)
Definition parseInt (s : jsstring) : option Z :=
  let s1 := trimStart s in
  let '(sign, s2) :=
    match s1 with
    | c :: rest =>
        if c =? 45 then ((-1)%Z, rest)
        else if c =? 43 then (1%Z, rest) else (1%Z, s1)
    | [] => (1%Z, s1)
    end in
  let '(radix, s3) :=
    match s2 with
    | z :: x :: rest =>
        if (z =? 48) && ((x =? 120) || (x =? 88)) then (16%Z, rest)
        else (10%Z, s2)
    | _ => (10%Z, s2)
    end in
  match digitsValue radix s3 None with
  | Some v => Some (sign * v)%Z
  | None => None
  end.

(** [parseInt(req.query.name as string) || dflt]: an absent parameter reads
    as [NaN]; [NaN] and zero are falsy. *)
Definition queryNumber (q : option jsstring) (dflt : Z) : Z :=
  match q with
  | Some s =>
      match parseInt s with
      | Some v => if (v =? 0)%Z then dflt else v
      | None => dflt
      end
  | None => dflt
  end.

(** The number (a double) that an arithmetic operation of JavaScript gives
    when its exact result is the integer [z]: [z] itself up to 2^53 in
    absolute value, and beyond that the nearest multiple of the power of
    two that leaves 53 significant bits, a tie going to the even one.  (No
    overflow: the results here stay far below 2^1024.  The sign of a zero
    is not kept.) *)
Definition roundToDouble (z : Z) : Z :=
  let a := Z.abs z in
  if (a <? 2 ^ 53)%Z then z
  else
    let e := (Z.log2 a - 52)%Z in
    let q := (a / 2 ^ e)%Z in
    let r := (a mod 2 ^ e)%Z in
    let half := (2 ^ (e - 1))%Z in
    let q' :=
      if (r <? half)%Z then q
      else if (half <? r)%Z then (q + 1)%Z
      else if Z.even q then q else (q + 1)%Z in
    (Z.sgn z * (q' * 2 ^ e))%Z.

(** What the handler computes from the query before it asks the store:
    [skip = (page - 1) * limit] is a product of doubles. *)
Record Paging : Type := {
  page : Z;
  limit : Z;
  skip : Z;
  take : Z
}.

Definition paging (queryPage queryLimit : option jsstring) : Paging :=
  let page := queryNumber queryPage 1 in
  let limit := queryNumber queryLimit 20 in
  {| page := page; limit := limit;
     skip := roundToDouble ((page - 1) * limit); take := limit |}.

(** [Math.ceil(total / limit)], exact for a count below 2^53. *)
Definition pages (total limit : Z) : Z := (- ((- total) / limit))%Z.

End History.
(** * Notions used in the statements *)

(** ** Texts *)

(** A string is collapsed when its only white-space characters are single
    spaces: no other white-space character and no two spaces in a row.
    [prev] says that the character before [s] was white space. *)
Fixpoint collapsed_from (prev : bool) (s : jsstring) : Prop :=
  match s with
  | [] => True
  | c :: rest =>
      if isWhiteSpace c
      then c = SPACE ∧ prev = false ∧ collapsed_from true rest
      else collapsed_from false rest
  end.

Definition collapsed (s : jsstring) : Prop := collapsed_from false s.

(** A text holds a visible character when some character of it is not white
    space. *)
Definition visible (s : jsstring) : Prop := ∃ c, c ∈ s ∧ isWhiteSpace c = false.

(** ** What it means for a pattern to match *)

(** [Matches p w caps]: the text [w] is an instance of the pattern [p], the
    groups of digits of [p] standing for the texts [caps]. *)
Inductive Matches : DateParser.pattern → jsstring → list jsstring → Prop :=
  | MatchesEnd : Matches [] [] []
  | MatchesLit c p w caps :
      Matches p w caps → Matches (DateParser.Lit c :: p) (c :: w) caps
  | MatchesDigits lo hi p d w caps :
      Forall (λ c, DateParser.isDigit c = true) d →
      (lo ≤ length d ≤ hi)%nat →
      Matches p w caps →
      Matches (DateParser.Digits lo hi :: p) (d ++ w) (d :: caps).

(** The pattern has an instance somewhere in the text. *)
Definition Occurs (p : DateParser.pattern) (s : jsstring) : Prop :=
  ∃ pre w post caps, s = pre ++ w ++ post ∧ Matches p w caps.

(** The number of capturing groups of a pattern. *)
Definition groupCount (p : DateParser.pattern) : nat :=
  length (List.filter (λ i, match i with
                            | DateParser.Digits _ _ => true
                            | DateParser.Lit _ => false
                            end) p).

(** ** Extraction results *)

(** The result invariant of the data model: a result either carries a
    content and no error, or an error and no content. *)
Definition contentXorError (r : Extractor.ExtractedWeChatArticle) : Prop :=
  (Extractor.content r ≠ [] ∧ Extractor.error r = None)
  ∨ (Extractor.content r = [] ∧ is_Some (Extractor.error r)).

(** ** The windows of the Batch Fetcher, by structure *)

(** A list cut into consecutive windows of two elements (the last window
    has one element when the length is odd). *)
Fixpoint windowsOf2 (l : list jsstring) : list (list jsstring) :=
  match l with
  | [] => []
  | [a] => [[a]]
  | a :: b :: rest => [a; b] :: windowsOf2 rest
  end.

(** The pacing delay, taken when more windows follow. *)
Definition paceBefore (ws : list (list jsstring)) : IO unit :=
  match ws with
  | [] => ret tt
  | _ :: _ => emit (EvDelay Fetcher.windowDelay)
  end.

(** The windows fetched one after the other, each URL of a window in turn,
    with the pacing delay between two windows. *)
Fixpoint runWindows (P : Platform) (ws : list (list jsstring))
    : IO (list (list Extractor.ExtractedWeChatArticle)) :=
  match ws with
  | [] => ret []
  | w :: ws' =>
      let* rs := mapIO (Extractor.extractSingleWeChatArticle P) w in
      let* _ := paceBefore ws' in
      let* rss := runWindows P ws' in
      ret (rs :: rss)
  end.

(** The requests recorded in a trace. *)
Definition requested (evs : Trace) : list jsstring :=
  omap (λ e, match e with EvGet u => Some u | EvDelay _ => None end) evs.

(** ** Entries of the report and rows of the store *)

(** A success entry carries a summary and no error; a failure entry an
    error and no summary. *)
Definition isSuccessEntry (e : Orchestrator.ResultEntry) : bool :=
  match Orchestrator.entrySummary e, Orchestrator.entryError e with
  | Some _, None => true
  | _, _ => false
  end.

Definition isFailureEntry (e : Orchestrator.ResultEntry) : bool :=
  match Orchestrator.entrySummary e, Orchestrator.entryError e with
  | None, Some _ => true
  | _, _ => false
  end.

(** The counters agree with the entries recorded so far. *)
Definition tallied (st : Orchestrator.State) : Prop :=
  Orchestrator.successCount st
    = length (List.filter isSuccessEntry (Orchestrator.results st))
  ∧ Orchestrator.failCount st
    = length (List.filter isFailureEntry (Orchestrator.results st))
  ∧ Forall (λ e, xorb (isSuccessEntry e) (isFailureEntry e) = true)
      (Orchestrator.results st).

(** The article row stored under a URL after a step of the handler. *)
Definition storedArticle (st : Orchestrator.State) (u : jsstring)
    : option Orchestrator.ArticleRow :=
  Orchestrator.articles (Orchestrator.db st) !! u.

(** The author the route writes: the extracted one unless it is absent or
    empty, then the account label. *)
Definition authorOrLabel (article : Extractor.ExtractedWeChatArticle)
    (accountName : jsstring) : jsstring :=
  match Extractor.author article with
  | Some (c :: a) => c :: a
  | _ => accountName
  end.

(** ** Concrete inputs *)

(** A text of 15001 characters whose 15000th character is a space. *)
Definition cutAtSpace : jsstring := replicate (N.to_nat 14999) 97 ++ [SPACE; 98].

(** The text before the first slash and the text from that slash on. *)
Fixpoint splitAtSlash (s : jsstring) : jsstring * jsstring :=
  match s with
  | [] => ([], [])
  | c :: rest =>
      if c =? 47 then ([], s)
      else let '(h, p) := splitAtSlash rest in (c :: h, p)
  end.

(** A small URL parser for the examples: it accepts the texts that start
    with [https://] and reads the host name up to the next slash. *)
Definition toyParseURL (u : jsstring) : option URL :=
  if startsWith (js "https://") u then
    let '(h, p) := splitAtSlash (drop 8 u) in
    Some {| hostname := h; pathname := p |}
  else None.

(** A platform whose pages are given by [page]. *)
Definition toyPlatform (page : jsstring → FetchOutcome) : Platform :=
  {| parseURL := toyParseURL; httpGet := λ _ u, page u; currentYear := 2026 |}.

(** A page whose content container holds four short paragraphs. *)
Definition fourParagraphs : Document :=
  {| firstText := λ _, [];
     firstElement := λ sel,
       if String.eqb sel "#js_content"
       then Some {| blocks := replicate 4 (js "Hello world");
                    fullText := js "Hello worldHello worldHello worldHello world" |}
       else None |}.

(** A page with a long paragraph and no author. *)
Definition anonymousPage : Document :=
  {| firstText := λ _, [];
     firstElement := λ sel,
       if String.eqb sel "#js_content"
       then Some {| blocks :=
                      [js "A paragraph that is long enough to pass the length guard."];
                    fullText := [] |}
       else None |}.

Definition articleLink : jsstring := js "https://mp.weixin.qq.com/s/abc".
Definition foreignLink : jsstring := js "https://example.com/s/abc".

(** The article extracted from [anonymousPage]. *)
Definition anonymousArticle : Extractor.ExtractedWeChatArticle :=
  Extractor.extractFromDocument 2026 articleLink anonymousPage.

(** Services whose model always answers [answer], whose store never fails
    and whose clock reads zero. *)
Definition toyServices (page : jsstring → FetchOutcome) (answer : jsstring)
    : Orchestrator.Services :=
  {| Orchestrator.platform := toyPlatform page;
     Orchestrator.JSON_parse := λ _, None;
     Orchestrator.llm := λ _ _ _, Orchestrator.LlmText answer;
     Orchestrator.prismaFault := λ _ _, None;
     Orchestrator.clock := λ _ _, 0 |}.

Definition freshState : Orchestrator.State :=
  {| Orchestrator.db := Orchestrator.emptyDb; Orchestrator.results := [];
     Orchestrator.successCount := 0; Orchestrator.failCount := 0;
     Orchestrator.pauses := 0 |}.

(** ** Further notions *)

(** The characters of a text that are not white space, in order. *)
Definition visibleChars (s : jsstring) : jsstring :=
  List.filter (λ c, negb (isWhiteSpace c)) s.

(** Whether the text read so far leaves the scanner inside a run of white
    space: [b] before anything is read, then the kind of the last
    character. *)
Definition endsInWhiteSpace (b : bool) (s : jsstring) : bool :=
  match last s with
  | Some c => isWhiteSpace c
  | None => b
  end.

(** A text is tight when it is not empty and neither starts nor ends with
    white space: the non-empty results of [trim]. *)
Definition tight (s : jsstring) : Prop :=
  (∃ c r, s = c :: r ∧ isWhiteSpace c = false)
  ∧ (∃ c, last s = Some c ∧ isWhiteSpace c = false).

(** The paragraphs of a content container that the extractor keeps: the
    trimmed texts of more than ten characters. *)
Definition keptBlocks (el : ContentElement) : list jsstring :=
  List.filter (λ t, (10 <? length t)%nat) (List.map trim (blocks el)).

(** [t] is what a fallback list of selectors yields on a page: the trimmed
    text of the first selector whose text is not blank, or the empty string
    when every selector gives a blank text. *)
Definition firstVisibleText (doc : Document) (sels : list String.string)
    (t : jsstring) : Prop :=
  (t = [] ∧ Forall (λ sel, trim (firstText doc sel) = []) sels)
  ∨ (∃ before sel after,
       sels = before ++ sel :: after
       ∧ Forall (λ sel', trim (firstText doc sel') = []) before
       ∧ t = trim (firstText doc sel) ∧ tight t).

(** A page whose only text is a date in the meta line. *)
Definition datedPage : Document :=
  {| firstText := λ sel,
       if String.eqb sel ".rich_media_meta_text" then js " 2024-03-15 " else [];
     firstElement := λ _, None |}.

(** The pauses recorded in a trace, with their lengths. *)
Definition pausesIn (evs : Trace) : list nat :=
  omap (λ e, match e with EvDelay ms => Some ms | EvGet _ => None end) evs.

(** The trace does not end with a pause. *)
Definition endsWithRequest (evs : Trace) : Prop :=
  evs = [] ∨ ∃ u, last evs = Some (EvGet u).


(** Services like [toyServices] whose store fails on the summary upsert. *)
Definition summaryFaultServices (page : jsstring → FetchOutcome)
    (answer : jsstring) : Orchestrator.Services :=
  {| Orchestrator.platform := toyPlatform page;
     Orchestrator.JSON_parse := λ _, None;
     Orchestrator.llm := λ _ _ _, Orchestrator.LlmText answer;
     Orchestrator.prismaFault := λ _ call,
       match call with
       | Orchestrator.UpsertSummary => Some (ErrorObject (js "connection lost"))
       | _ => None
       end;
     Orchestrator.clock := λ _ _, 0 |}.

(** Services whose model never answers. *)
Definition silentServices (page : jsstring → FetchOutcome) : Orchestrator.Services :=
  {| Orchestrator.platform := toyPlatform page;
     Orchestrator.JSON_parse := λ _, None;
     Orchestrator.llm := λ _ _ _, Orchestrator.LlmFails (js "Error: timeout");
     Orchestrator.prismaFault := λ _ _, None;
     Orchestrator.clock := λ _ _, 0 |}.

(** The summary that [batchSummarize] keeps for an identifier: that of the
    last article with that identifier whose call succeeded.  [k] is the
    position of the first article of the list in the whole batch. *)
Fixpoint lastSuccessFrom (sv : Orchestrator.Services) (k : nat)
    (articles : list BatchSummarizer.ArticleInput) (id : jsstring)
    : option Summarizer.SummaryResult :=
  match articles with
  | [] => None
  | a :: more =>
      match lastSuccessFrom sv (S k) more id with
      | Some r => Some r
      | None =>
          if jsstring_eqb (BatchSummarizer.inputId a) id then
            match Orchestrator.summarizeArticle sv k
                    (BatchSummarizer.inputTitle a)
                    (BatchSummarizer.inputContent a) with
            | inl r => Some r
            | inr _ => None
            end
          else None
      end
  end.

(** The number of calls that succeed. *)
Fixpoint successesFrom (sv : Orchestrator.Services) (k : nat)
    (articles : list BatchSummarizer.ArticleInput) : nat :=
  match articles with
  | [] => 0
  | a :: more =>
      (match Orchestrator.summarizeArticle sv k
               (BatchSummarizer.inputTitle a) (BatchSummarizer.inputContent a) with
       | inl _ => 1
       | inr _ => 0
       end + successesFrom sv (S k) more)%nat
  end.

(** Services whose model answers for every article but the first. *)
Definition firstFailsServices : Orchestrator.Services :=
  {| Orchestrator.platform := toyPlatform (λ _, Loaded anonymousPage);
     Orchestrator.JSON_parse := λ _, None;
     Orchestrator.llm := λ k _ _,
       match k with
       | O => Orchestrator.LlmFails (js "Error: timeout")
       | S _ => Orchestrator.LlmText (js "fine")
       end;
     Orchestrator.prismaFault := λ _ _, None;
     Orchestrator.clock := λ _ _, 0 |}.

(** The groups of an instance of a pattern are runs of digits of the
    lengths the pattern allows. *)
Fixpoint groupsFit (p : DateParser.pattern) (caps : list jsstring) : Prop :=
  match p, caps with
  | [], [] => True
  | DateParser.Lit _ :: p', _ => groupsFit p' caps
  | DateParser.Digits lo hi :: p', d :: caps' =>
      Forall (λ c, DateParser.isDigit c = true) d ∧ (lo ≤ length d ≤ hi)%nat
      ∧ groupsFit p' caps'
  | _, _ => False
  end.

(** The events of a run of windows, in order: the requests of each window,
    and one pause before each window but the first. *)
Fixpoint windowEvents (ws : list (list jsstring)) : Trace :=
  match ws with
  | [] => []
  | w :: ws' =>
      (EvGet <$> w)
        ++ match ws' with
           | [] => []
           | _ :: _ => EvDelay Fetcher.windowDelay :: windowEvents ws'
           end
  end.

(** * Properties *)

(** ** The definitions at work *)

Example clean_ex1 :
  Cleaner.cleanContent (js "  hello   world  ") = js "hello world".
Proof. vm_compute. reflexivity. Qed.

Example breaks_ex1 :
  Cleaner.normalizeBreaks [97; 10; 32; 10; 10; 98; 10; 99] = [97; 10; 10; 98; 10; 99].
Proof. vm_compute. reflexivity. Qed.

Example date_ex1 :
  DateParser.parseChineseDate 2026 (js "2024" ++ [DateParser.NIAN] ++ js "3" ++ [DateParser.YUE] ++ js "15" ++ [DateParser.RI])
  = Some (DateParser.DateOf 2024 2 15).
Proof. vm_compute. reflexivity. Qed.

Example date_ex2 :
  DateParser.parseChineseDate 2026 (js "on 2023-11-05 10:00") = Some (DateParser.DateOf 2023 10 5).
Proof. vm_compute. reflexivity. Qed.

Example date_ex3 :
  DateParser.parseChineseDate 2026 (js "7" ++ [DateParser.YUE] ++ js "31" ++ [DateParser.RI])
  = Some (DateParser.DateOf 2026 6 31).
Proof. vm_compute. reflexivity. Qed.

Example date_ex4 : DateParser.parseChineseDate 2026 (js "yesterday") = None.
Proof. vm_compute. reflexivity. Qed.

(** Five digits before the year sign: the match starts at the second. *)
Example date_ex5 :
  DateParser.regexMatch DateParser.pattern1
    (js "20245" ++ [DateParser.NIAN] ++ js "3" ++ [DateParser.YUE] ++ js "5" ++ [DateParser.RI])
  = Some [js "0245" ++ [DateParser.NIAN] ++ js "3" ++ [DateParser.YUE] ++ js "5" ++ [DateParser.RI];
          js "0245"; js "3"; js "5"].
Proof. vm_compute. reflexivity. Qed.

Example jsonMatch_ex1 :
  Summarizer.jsonMatch (js "Here: {a} and {b} done") = Some (js "{a} and {b}").
Proof. vm_compute. reflexivity. Qed.

Example splitLines_ex1 :
  Summarizer.splitLines (js "ab" ++ [LF] ++ [LF] ++ js "c") = [js "ab"; []; js "c"].
Proof. vm_compute. reflexivity. Qed.

(** Three article links and one foreign link: the foreign link comes
    first, the articles follow in two windows with one pause between them. *)
Example batch_ex1 :
  let out := Fetcher.extractBatchWeChatArticles
               (toyPlatform (λ _, Loaded fourParagraphs))
               [js "https://mp.weixin.qq.com/s/a"; js "https://example.com/s/x";
                js "https://mp.weixin.qq.com/s/b"; js "https://mp.weixin.qq.com/s/c"] [] in
  Extractor.url <$> out.1
    = [js "https://example.com/s/x"; js "https://mp.weixin.qq.com/s/a";
       js "https://mp.weixin.qq.com/s/b"; js "https://mp.weixin.qq.com/s/c"]
  ∧ out.2 = [EvGet (js "https://mp.weixin.qq.com/s/a"); EvGet (js "https://mp.weixin.qq.com/s/b");
             EvDelay 3000; EvGet (js "https://mp.weixin.qq.com/s/c")].
Proof. vm_compute. auto. Qed.

(** Two articles, the model failing on the first: only the second is in the
    map, and one pause is taken. *)
Example batchSummarize_ex1 :
  let out := BatchSummarizer.batchSummarize firstFailsServices
               [{| BatchSummarizer.inputId := js "a";
                   BatchSummarizer.inputTitle := js "T1";
                   BatchSummarizer.inputContent := js "C1" |};
                {| BatchSummarizer.inputId := js "b";
                   BatchSummarizer.inputTitle := js "T2";
                   BatchSummarizer.inputContent := js "C2" |}] in
  BatchSummarizer.summarized out !! js "a" = None
  ∧ BatchSummarizer.summarized out !! js "b"
    = Some (Summarizer.fallbackParsing (js "fine"))
  ∧ BatchSummarizer.waits out = 1%nat.
Proof. vm_compute. auto. Qed.

Example history_ex1 :
  History.parseInt (js "  -0x1F rest") = Some (-31)%Z
  ∧ History.parseInt (js "12px") = Some 12%Z
  ∧ History.parseInt (js "px") = None
  ∧ History.paging (Some (js "3")) None
    = {| History.page := 3; History.limit := 20; History.skip := 40;
         History.take := 20 |}.
Proof. vm_compute. auto. Qed.

Example history_ex2 :
  History.paging (Some (js "999999999999999")) (Some (js "999999999999999"))
  = {| History.page := 999999999999999; History.limit := 999999999999999;
       History.skip := 999999999999997064397369376768;
       History.take := 999999999999999 |}
  ∧ History.roundToDouble (2 ^ 53 + 1) = (2 ^ 53)%Z
  ∧ History.roundToDouble (2 ^ 53 + 3) = (2 ^ 53 + 4)%Z
  ∧ History.roundToDouble (- (2 ^ 54 + 6)) = (- (2 ^ 54 + 8))%Z.
Proof. vm_compute. auto. Qed.

Example windowEvents_ex1 :
  windowEvents (windowsOf2 [js "a"; js "b"; js "c"; js "d"; js "e"])
  = [EvGet (js "a"); EvGet (js "b"); EvDelay 3000;
     EvGet (js "c"); EvGet (js "d"); EvDelay 3000; EvGet (js "e")].
Proof. reflexivity. Qed.

(** ** Facts about trimming *)

Section TrimFacts.

Lemma trimStart_split (s : jsstring) :
  ∃ w, s = w ++ trimStart s ∧ Forall (λ c, isWhiteSpace c = true) w.
Proof.
  induction s as [|c r [w [Hw Hall]]]; simpl.
  - exists []. split; [reflexivity | constructor].
  - destruct (isWhiteSpace c) eqn:Hc.
    + exists (c :: w). split; [simpl; congruence | constructor; assumption].
    + exists []. split; [reflexivity | constructor].
Qed.

Lemma trimStart_head (s : jsstring) c r :
  trimStart s = c :: r → isWhiteSpace c = false.
Proof.
  induction s as [|a s IH]; simpl; [discriminate |].
  destruct (isWhiteSpace a) eqn:Ha; [exact IH |].
  intros [= <- <-]. exact Ha.
Qed.

Lemma trimStart_fixed (s : jsstring) :
  match s with [] => True | c :: _ => isWhiteSpace c = false end →
  trimStart s = s.
Proof. destruct s as [|c r]; simpl; [reflexivity | intros ->; reflexivity]. Qed.

Lemma trimStart_length (s : jsstring) : (length (trimStart s) ≤ length s)%nat.
Proof.
  induction s as [|c r IH]; simpl; [lia |].
  destruct (isWhiteSpace c); simpl; lia.
Qed.

Lemma trimEnd_split (s : jsstring) :
  ∃ w, s = trimEnd s ++ w ∧ Forall (λ c, isWhiteSpace c = true) w.
Proof.
  unfold trimEnd. destruct (trimStart_split (reverse s)) as [w [Hw Hall]].
  exists (reverse w). split.
  - rewrite <- reverse_app, <- Hw, reverse_involutive. reflexivity.
  - apply Forall_reverse. exact Hall.
Qed.

Lemma trimEnd_length (s : jsstring) : (length (trimEnd s) ≤ length s)%nat.
Proof.
  unfold trimEnd. rewrite length_reverse.
  etransitivity; [apply trimStart_length | rewrite length_reverse; lia].
Qed.

Lemma trimEnd_last (s : jsstring) c :
  last (trimEnd s) = Some c → isWhiteSpace c = false.
Proof.
  unfold trimEnd. rewrite last_reverse.
  destruct (trimStart (reverse s)) as [|a r] eqn:E; simpl; [discriminate |].
  intros [= <-]. eapply trimStart_head. exact E.
Qed.

(** [trimEnd] leaves a string alone exactly when it does not end in white
    space. *)
Lemma trimEnd_fixed (s : jsstring) :
  (∀ c, last s = Some c → isWhiteSpace c = false) → trimEnd s = s.
Proof.
  intros H. unfold trimEnd.
  rewrite trimStart_fixed; [apply reverse_involutive |].
  destruct (reverse s) as [|a r] eqn:E; [exact I |].
  apply H. rewrite <- head_reverse, E. reflexivity.
Qed.

Lemma trimEnd_head (s : jsstring) c r :
  s = c :: r → isWhiteSpace c = false → ∃ r', trimEnd s = c :: r'.
Proof.
  intros -> Hc. destruct (trimEnd_split (c :: r)) as [w [Hw Hall]].
  destruct (trimEnd (c :: r)) as [|a t] eqn:E.
  - simpl in Hw. subst w. inversion Hall; congruence.
  - simpl in Hw. injection Hw as <- _. eauto.
Qed.

Lemma trim_head (s : jsstring) c r :
  trim s = c :: r → isWhiteSpace c = false.
Proof.
  unfold trim. destruct (trimStart s) as [|a t] eqn:E.
  - vm_compute. discriminate.
  - pose proof (trimStart_head _ _ _ E) as Ha.
    destruct (trimEnd_head (a :: t) a t eq_refl Ha) as [r' ->].
    intros [= <- _]. exact Ha.
Qed.

Lemma trim_last (s : jsstring) c :
  last (trim s) = Some c → isWhiteSpace c = false.
Proof. apply trimEnd_last. Qed.

Lemma trim_length (s : jsstring) : (length (trim s) ≤ length s)%nat.
Proof.
  unfold trim. etransitivity; [apply trimEnd_length | apply trimStart_length].
Qed.

(** A string holding a character that is not white space does not trim to
    the empty string. *)
Lemma trim_nonempty (s : jsstring) c :
  c ∈ s → isWhiteSpace c = false → trim s ≠ [].
Proof.
  intros Hin Hc Hnil. unfold trim in Hnil.
  destruct (trimStart_split s) as [w [Hw Hall]].
  destruct (trimEnd_split (trimStart s)) as [w' [Hw' Hall']].
  rewrite Hnil in Hw'. simpl in Hw'. rewrite Hw' in Hw.
  rewrite Hw in Hin. apply elem_of_app in Hin as [Hin|Hin].
  - rewrite Forall_forall in Hall. specialize (Hall _ Hin). congruence.
  - rewrite Forall_forall in Hall'. specialize (Hall' _ Hin). congruence.
Qed.

End TrimFacts.

(** ** Facts about the Content Cleaner *)

Module CleanerFacts.
Import Cleaner.

Lemma collapse_from_collapsed b s : collapsed_from b (collapse_from b s).
Proof.
  revert b. induction s as [|c r IH]; intros b; simpl; [exact I |].
  destruct (isWhiteSpace c) eqn:Hc.
  - destruct b; [apply IH |]. simpl. repeat split. apply IH.
  - simpl. rewrite Hc. apply IH.
Qed.

Lemma collapsed_from_weaken b s : collapsed_from b s → collapsed_from false s.
Proof.
  destruct s as [|c r]; simpl; [trivial |].
  destruct (isWhiteSpace c); [| trivial]. intros (? & ? & ?). auto.
Qed.

Lemma collapse_from_fixed b s : collapsed_from b s → collapse_from b s = s.
Proof.
  revert b. induction s as [|c r IH]; intros b; simpl; [reflexivity |].
  destruct (isWhiteSpace c) eqn:Hc.
  - intros (-> & -> & H). f_equal. apply IH, H.
  - intros H. f_equal. apply IH, H.
Qed.

Lemma collapsed_from_app_l b s t : collapsed_from b (s ++ t) → collapsed_from b s.
Proof.
  revert b. induction s as [|c r IH]; intros b; simpl; [trivial |].
  destruct (isWhiteSpace c); [intros (? & ? & ?); eauto | eauto].
Qed.

Lemma collapsed_from_app_r b s t :
  collapsed_from b (s ++ t) → ∃ b', collapsed_from b' t.
Proof.
  revert b. induction s as [|c r IH]; intros b; simpl; [eauto |].
  destruct (isWhiteSpace c); [intros (? & ? & ?); eauto | eauto].
Qed.

Lemma collapsed_trimStart s : collapsed s → collapsed (trimStart s).
Proof.
  intros H. destruct (trimStart_split s) as [w [Hw _]].
  unfold collapsed in H. rewrite Hw in H.
  apply collapsed_from_app_r in H as [b' H].
  eapply collapsed_from_weaken, H.
Qed.

Lemma collapsed_trimEnd s : collapsed s → collapsed (trimEnd s).
Proof.
  intros H. destruct (trimEnd_split s) as [w [Hw _]].
  unfold collapsed in H. rewrite Hw in H.
  eapply collapsed_from_app_l, H.
Qed.

Lemma collapsed_take n s : collapsed s → collapsed (take n s).
Proof.
  intros H. rewrite <- (take_drop n s) in H.
  eapply collapsed_from_app_l, H.
Qed.

(** A collapsed string holds no line feed (nor any white space other than
    the space). *)
Lemma collapsed_from_ws b s c :
  collapsed_from b s → c ∈ s → isWhiteSpace c = true → c = SPACE.
Proof.
  revert b. induction s as [|a r IH]; intros b H Hin Hc.
  - inversion Hin.
  - simpl in H. apply elem_of_cons in Hin as [->|Hin].
    + rewrite Hc in H. tauto.
    + destruct (isWhiteSpace a); [destruct H as (_ & _ & H) |]; eauto.
Qed.

Lemma collapsed_no_LF s : collapsed s → LF ∉ s.
Proof.
  intros H Hin.
  pose proof (collapsed_from_ws false s LF H Hin eq_refl) as E.
  discriminate E.
Qed.

(** Without a line feed there is nothing for [/\n\s*\n/] to match. *)
Lemma normalizeBreaks_no_LF s : LF ∉ s → normalizeBreaks s = s.
Proof.
  unfold normalizeBreaks. induction s as [|c r IH]; intros H; simpl; [reflexivity |].
  destruct (N.eqb_spec c LF) as [->|Hc].
  - exfalso. apply H. left.
  - f_equal. apply IH. intros Hin. apply H. right. exact Hin.
Qed.

(** The second replacement of [cleanContent] never fires: the first one has
    already turned every line feed into a space. *)
Lemma cleanContent_unfold s :
  cleanContent s = take maxContentLength (trim (collapseWhitespace s)).
Proof.
  unfold cleanContent, substring0. rewrite normalizeBreaks_no_LF; [reflexivity |].
  apply collapsed_no_LF, collapse_from_collapsed.
Qed.

Lemma cleanContent_collapsed s : collapsed (cleanContent s).
Proof.
  rewrite cleanContent_unfold. apply collapsed_take.
  unfold trim. apply collapsed_trimEnd, collapsed_trimStart, collapse_from_collapsed.
Qed.

Lemma cleanContent_length s : (length (cleanContent s) ≤ maxContentLength)%nat.
Proof. rewrite cleanContent_unfold, length_take. lia. Qed.

Lemma cleanContent_no_LF s : LF ∉ cleanContent s.
Proof. apply collapsed_no_LF, cleanContent_collapsed. Qed.

Lemma cleanContent_head s c r :
  cleanContent s = c :: r → isWhiteSpace c = false.
Proof.
  rewrite cleanContent_unfold.
  destruct (trim (collapseWhitespace s)) as [|a t] eqn:E.
  - rewrite take_nil. discriminate.
  - apply trim_head in E. unfold maxContentLength.
    change (N.to_nat 15000) with (S (N.to_nat 14999)). simpl.
    intros [= <- _]. exact E.
Qed.

(** Collapsing keeps every character that is not white space. *)
Lemma collapse_from_keeps b s c :
  c ∈ s → isWhiteSpace c = false → c ∈ collapse_from b s.
Proof.
  revert b. induction s as [|a r IH]; intros b Hin Hc; [inversion Hin |].
  simpl. apply elem_of_cons in Hin as [<-|Hin].
  - rewrite Hc. left.
  - destruct (isWhiteSpace a); [destruct b |]; try right; eauto.
Qed.

(** The cleaned form of a text that holds some character other than white
    space is not empty. *)
Lemma cleanContent_nonempty s c :
  c ∈ s → isWhiteSpace c = false → cleanContent s ≠ [].
Proof.
  intros Hin Hc. rewrite cleanContent_unfold.
  pose proof (trim_nonempty (collapseWhitespace s) c
                (collapse_from_keeps false s c Hin Hc) Hc) as Hne.
  destruct (trim (collapseWhitespace s)); [congruence |].
  unfold maxContentLength. change (N.to_nat 15000) with (S (N.to_nat 14999)).
  simpl. discriminate.
Qed.

(** A second pass only trims the end: it removes the space that truncation
    may have left as the last character. *)
Lemma cleanContent_twice s :
  cleanContent (cleanContent s) = trimEnd (cleanContent s).
Proof.
  rewrite (cleanContent_unfold (cleanContent s)).
  unfold collapseWhitespace.
  rewrite collapse_from_fixed by apply cleanContent_collapsed.
  unfold trim. rewrite trimStart_fixed.
  - apply take_ge. etransitivity; [apply trimEnd_length | apply cleanContent_length].
  - destruct (cleanContent s) as [|c r] eqn:E; [exact I |].
    eapply cleanContent_head, E.
Qed.

Lemma cleanContent_idem_iff s :
  cleanContent (cleanContent s) = cleanContent s ↔ last (cleanContent s) ≠ Some SPACE.
Proof.
  rewrite cleanContent_twice. split.
  - intros E Hl. rewrite <- E in Hl. apply trimEnd_last in Hl. discriminate Hl.
  - intros Hl. apply trimEnd_fixed. intros c Hc.
    destruct (isWhiteSpace c) eqn:Hw; [| reflexivity].
    exfalso. apply Hl. rewrite Hc. f_equal.
    eapply collapsed_from_ws; [apply cleanContent_collapsed | | exact Hw].
    eapply last_Some_elem_of, Hc.
Qed.

End CleanerFacts.

(** ** The Content Cleaner on paragraph breaks and on a second pass *)

Section CleanerClaims.
Import Cleaner CleanerFacts.

(** Truncation is the only obstacle: when the collapsed and trimmed text fits
    in the maximal length, a second pass changes nothing. *)
Lemma cleanContent_short_idempotent (s : jsstring) :
  (length (trim (collapseWhitespace s)) ≤ maxContentLength)%nat →
  cleanContent (cleanContent s) = cleanContent s.
Proof.
  intros Hlen. apply cleanContent_idem_iff.
  rewrite cleanContent_unfold, take_ge by exact Hlen.
  intros Hl. apply trim_last in Hl. discriminate Hl.
Qed.

(** C4 (evaluation at the failing input).  The cleaner does not keep a
    paragraph break: two paragraphs separated by a blank line come out joined
    by one space, and no output of the cleaner ever holds a line feed.  The
    replacement of [\s+] runs first and also matches line feeds, so the
    replacement that should normalise blank lines has nothing left to
    match. *)
Theorem cleanContent_loses_paragraph_breaks :
  cleanContent (js "Para one." ++ [LF; LF] ++ js "Para two.")
    = js "Para one. Para two."
  ∧ ∀ s, LF ∉ cleanContent s.
Proof.
  split; [vm_compute; reflexivity | apply cleanContent_no_LF].
Qed.

(** C5 (counterexample).  The cleaner is not idempotent on [cutAtSpace]:
    the first pass truncates after the space, the second pass trims it. *)
Lemma cleanContent_not_idempotent :
  cleanContent (cleanContent cutAtSpace) ≠ cleanContent cutAtSpace.
Proof.
  rewrite cleanContent_idem_iff. intros H. apply H.
  vm_compute. reflexivity.
Qed.

(** C5 (amended).  The cleaner is idempotent on every input whose cleaned
    text does not end in a space. *)
Theorem cleanContent_idempotent_unless_cut (s : jsstring) :
  last (cleanContent s) ≠ Some SPACE →
  cleanContent (cleanContent s) = cleanContent s.
Proof. apply cleanContent_idem_iff. Qed.

(** The amended C5 on a short text. *)
Lemma cleanContent_idempotent_unless_cut_witness :
  last (cleanContent (js "  hello   world  ")) ≠ Some SPACE
  ∧ cleanContent (cleanContent (js "  hello   world  "))
    = cleanContent (js "  hello   world  ").
Proof.
  assert (H : last (cleanContent (js "  hello   world  ")) ≠ Some SPACE)
    by (vm_compute; discriminate).
  split; [exact H | exact (cleanContent_idempotent_unless_cut _ H)].
Defined.

End CleanerClaims.

(** ** Page Extractor *)

Module ExtractorFacts.
Import Cleaner CleanerFacts Extractor.

Lemma trim_visible s : trim s ≠ [] → visible (trim s).
Proof.
  destruct (trim s) as [|c r] eqn:E; [congruence | intros _].
  exists c. split; [left | eapply trim_head, E].
Qed.

Lemma appendBlock_visible acc t :
  acc = [] ∨ visible acc → appendBlock acc t = [] ∨ visible (appendBlock acc t).
Proof.
  intros Hacc. unfold appendBlock.
  destruct (truthy (trim t) && (10 <? length (trim t))%nat) eqn:Hc; [| exact Hacc].
  right. apply andb_true_iff in Hc as [Ht _].
  destruct (trim_visible t) as (c & Hin & Hc).
  - destruct (trim t); [discriminate | discriminate].
  - exists c. split; [| exact Hc]. rewrite !elem_of_app. auto.
Qed.

Lemma fold_appendBlock_visible bs acc :
  acc = [] ∨ visible acc →
  fold_left appendBlock bs acc = [] ∨ visible (fold_left appendBlock bs acc).
Proof.
  revert acc. induction bs as [|b bs IH]; intros acc H; simpl; [exact H |].
  apply IH, appendBlock_visible, H.
Qed.

Lemma contentOfElement_visible el :
  contentOfElement el = [] ∨ visible (contentOfElement el).
Proof.
  unfold contentOfElement.
  destruct (truthy (fold_left appendBlock (blocks el) [])) eqn:Ht.
  - apply fold_appendBlock_visible. left. reflexivity.
  - destruct (trim (fullText el)) eqn:E; [left; reflexivity |].
    right. rewrite <- E. apply trim_visible. rewrite E. discriminate.
Qed.

(** What [extractContent] returns is empty or holds a visible character. *)
Lemma extractContent_visible doc :
  extractContent doc = [] ∨ visible (extractContent doc).
Proof.
  unfold extractContent. induction contentSelectors as [|sel sels IH]; simpl.
  - left. reflexivity.
  - destruct (firstElement doc sel); [apply contentOfElement_visible | exact IH].
Qed.

Lemma extractSingle_run P u tr :
  extractSingleWeChatArticle P u tr
  = (match httpGet P tr u with
     | Loaded doc => extractFromDocument (currentYear P) u doc
     | Threw e => caught u e
     end, tr ++ [EvGet u]).
Proof.
  unfold extractSingleWeChatArticle, bind, history, emit, ret.
  destruct (httpGet P tr u); reflexivity.
Qed.

Lemma extractSingle_url P u tr : url (extractSingleWeChatArticle P u tr).1 = u.
Proof.
  rewrite extractSingle_run. simpl.
  destruct (httpGet P tr u) as [doc|e]; [| reflexivity].
  unfold extractFromDocument. destruct (_ || _); reflexivity.
Qed.

(** The guard on the extracted content, as a comparison of lengths. *)
Lemma too_short_iff (c : jsstring) :
  negb (truthy c) || (length c <? 50)%nat = true ↔ (length c < 50)%nat.
Proof.
  rewrite orb_true_iff, Nat.ltb_lt. split.
  - intros [H|H]; [destruct c; [simpl; lia | discriminate] | exact H].
  - auto.
Qed.

End ExtractorFacts.

Section ExtractorClaims.
Import Cleaner CleanerFacts Extractor ExtractorFacts.

(** The cases of [extractSingleWeChatArticle], read off its result. *)
Lemma extractSingle_cases (P : Platform) (u : jsstring) (tr : Trace) :
  let r := (extractSingleWeChatArticle P u tr).1 in
  match error r with
  | Some reason =>
      content r = [] ∧ title r = MSG_EXTRACT_FAILED ∧
      match httpGet P tr u with
      | Threw (ErrorObject message) => reason = message
      | Threw OtherValue => reason = MSG_UNKNOWN_ERROR
      | Loaded doc =>
          reason = MSG_TOO_SHORT ∧ (length (extractContent doc) < 50)%nat
      end
  | None =>
      ∃ doc, httpGet P tr u = Loaded doc
             ∧ (50 ≤ length (extractContent doc))%nat
             ∧ content r = cleanContent (extractContent doc)
             ∧ content r ≠ []
  end.
Proof.
  rewrite extractSingle_run. simpl.
  destruct (httpGet P tr u) as [doc|[m|]]; simpl; [| auto | auto].
  unfold extractFromDocument.
  destruct (negb (truthy (extractContent doc)) || (length (extractContent doc) <? 50)%nat)
    eqn:Hg; simpl.
  - apply too_short_iff in Hg. auto.
  - assert (Hlen : (50 ≤ length (extractContent doc))%nat).
    { destruct (Nat.lt_ge_cases (length (extractContent doc)) 50) as [Hlt|Hge];
        [| exact Hge].
      apply too_short_iff in Hlt. congruence. }
    exists doc. repeat split; [exact Hlen |].
    destruct (extractContent_visible doc) as [E|(c & Hin & Hc)].
    + rewrite E in Hlen. simpl in Hlen. lia.
    + eapply cleanContent_nonempty; eassumption.
Qed.

(** C3 (counterexample).  A page with four paragraphs of eleven characters
    passes the guard (the extracted text, with its separators, has 52
    characters) and yields a success whose content has 47 characters. *)
Lemma extractSingle_short_success :
  let r := (extractSingleWeChatArticle (toyPlatform (λ _, Loaded fourParagraphs))
              (articleLink) []).1 in
  error r = None ∧ length (content r) = 47%nat
  ∧ length (extractContent fourParagraphs) = 52%nat.
Proof. vm_compute. auto. Qed.

(** C3 (amended).  [extractSingleWeChatArticle] always returns a result.
    A result with an error has the empty content and the failure title, and
    its reason is the message of what was thrown (the fixed unknown-error
    text for a value that is not an [Error]), or the too-short message when
    the page was loaded and the extracted text, before cleaning, has fewer
    than 50 characters.  A result without error comes from a loaded page
    whose extracted text, before cleaning, has at least 50 characters; its
    content is the cleaned text, which is not empty. *)
Theorem extractSingle_outcome (P : Platform) (u : jsstring) (tr : Trace) :
  let r := (extractSingleWeChatArticle P u tr).1 in
  match error r with
  | Some reason =>
      content r = [] ∧ title r = MSG_EXTRACT_FAILED ∧
      match httpGet P tr u with
      | Threw (ErrorObject message) => reason = message
      | Threw OtherValue => reason = MSG_UNKNOWN_ERROR
      | Loaded doc =>
          reason = MSG_TOO_SHORT ∧ (length (extractContent doc) < 50)%nat
      end
  | None =>
      ∃ doc, httpGet P tr u = Loaded doc
             ∧ (50 ≤ length (extractContent doc))%nat
             ∧ content r = cleanContent (extractContent doc)
             ∧ content r ≠ []
  end.
Proof. apply extractSingle_cases. Qed.

(** C2, for one page: a result carries a content or an error, never both
    and never neither. *)
Lemma extractSingle_contentXorError P u tr :
  contentXorError (extractSingleWeChatArticle P u tr).1.
Proof.
  pose proof (extractSingle_cases P u tr) as H. simpl in H.
  unfold contentXorError.
  destruct (error (extractSingleWeChatArticle P u tr).1) as [reason|] eqn:E.
  - right. split; [apply H | eauto].
  - left. destruct H as (doc & _ & _ & _ & Hne). auto.
Qed.

End ExtractorClaims.

(** ** Batch Fetcher *)

Module FetcherFacts.
Import Extractor ExtractorFacts Fetcher.

Lemma bind_run {A B} (m : IO A) (k : A → IO B) tr :
  bind m k tr = k (m tr).1 (m tr).2.
Proof. unfold bind. destruct (m tr). reflexivity. Qed.

Lemma mapIO_extractPromise P l tr :
  mapIO (extractPromise P) l tr
  = ((Fulfilled <$> (mapIO (extractSingleWeChatArticle P) l tr).1),
     (mapIO (extractSingleWeChatArticle P) l tr).2).
Proof.
  revert tr. induction l as [|u l IH]; intros tr; simpl; [reflexivity |].
  unfold extractPromise. rewrite !bind_run, IH. reflexivity.
Qed.

(** Every promise fulfils, so the [forEach] appends the values in order. *)
Lemma pushSettled_fulfilled batch i (rs results : list ExtractedWeChatArticle) :
  pushSettled batch i (Fulfilled <$> rs) results = results ++ rs.
Proof.
  revert i results. induction rs as [|r rs IH]; intros i results; simpl.
  - rewrite app_nil_r. reflexivity.
  - rewrite IH, <- app_assoc. reflexivity.
Qed.

Lemma windowsOf2_step (d : list jsstring) :
  d ≠ [] → windowsOf2 d = take 2 d :: windowsOf2 (drop 2 d).
Proof. destruct d as [|a [|b r]]; [congruence | reflexivity | reflexivity]. Qed.

Lemma windowsOf2_nil_iff (d : list jsstring) : windowsOf2 d = [] ↔ d = [].
Proof. destruct d as [|a [|b r]]; simpl; split; congruence. Qed.

(** Induction two elements at a time. *)
Lemma list_pair_ind {A} (Q : list A → Prop) :
  Q [] → (∀ a, Q [a]) → (∀ a b l, Q l → Q (a :: b :: l)) → ∀ l, Q l.
Proof.
  intros H0 H1 H2 l.
  enough (Q l ∧ ∀ a, Q (a :: l)) by tauto.
  induction l as [|x l [IHl IHc]]; [split; auto |].
  split; [apply IHc | intros a; apply H2, IHl].
Qed.

Lemma concat_windowsOf2 (l : list jsstring) : concat (windowsOf2 l) = l.
Proof.
  induction l as [| a | a b l IH] using list_pair_ind; simpl; [reflexivity ..|].
  rewrite IH. reflexivity.
Qed.

Lemma windowsOf2_sizes (l : list jsstring) :
  Forall (λ w, (1 ≤ length w ≤ 2)%nat) (windowsOf2 l).
Proof.
  induction l as [| a | a b l IH] using list_pair_ind; simpl;
    repeat constructor; simpl; try lia; assumption.
Qed.

(** The loop of the source, given enough fuel, fetches the windows of the
    URLs from position [i] on. *)
Lemma windowLoop_windows P fuel (l : list jsstring) i results tr :
  (length l - i ≤ fuel)%nat →
  windowLoop P fuel l i results tr
  = (results ++ concat (runWindows P (windowsOf2 (drop i l)) tr).1,
     (runWindows P (windowsOf2 (drop i l)) tr).2).
Proof.
  revert i results tr. induction fuel as [|fuel IH]; intros i results tr Hfuel.
  - rewrite drop_ge by lia. simpl. rewrite app_nil_r. reflexivity.
  - simpl. destruct (Nat.ltb_spec i (length l)) as [Hi|Hi].
    + assert (Hd : drop i l ≠ []).
      { intros E. apply (f_equal length) in E. rewrite length_drop in E.
        simpl in E. lia. }
      rewrite (windowsOf2_step _ Hd). unfold concurrencyLimit.
      rewrite drop_drop. simpl runWindows.
      rewrite !bind_run, mapIO_extractPromise. simpl fst. simpl snd.
      rewrite pushSettled_fulfilled.
      assert (Hdelay : (if (i + 2 <? length l)%nat
                        then emit (EvDelay windowDelay) else ret tt)
                       = paceBefore (windowsOf2 (drop (i + 2) l))).
      { destruct (Nat.ltb_spec (i + 2) (length l)) as [Hlt|Hge].
        - destruct (windowsOf2 (drop (i + 2) l)) eqn:E; [| reflexivity].
          apply windowsOf2_nil_iff in E. apply (f_equal length) in E.
          rewrite length_drop in E. simpl in E. lia.
        - rewrite drop_ge by lia. reflexivity. }
      rewrite Hdelay, IH by lia. unfold ret. simpl.
      rewrite <- app_assoc. reflexivity.
    + rewrite drop_ge by lia. simpl. rewrite app_nil_r. reflexivity.
Qed.

Lemma extractBatch_windows P urls tr :
  extractBatchWeChatArticles P urls tr
  = (List.map invalidResult (List.filter (λ u, negb (isWeChatArticleUrl P u)) urls)
       ++ concat (runWindows P (windowsOf2 (List.filter (isWeChatArticleUrl P) urls)) tr).1,
     (runWindows P (windowsOf2 (List.filter (isWeChatArticleUrl P) urls)) tr).2).
Proof.
  unfold extractBatchWeChatArticles. rewrite windowLoop_windows by lia.
  rewrite drop_0. reflexivity.
Qed.

Lemma mapIO_extract_urls P l tr :
  url <$> (mapIO (extractSingleWeChatArticle P) l tr).1 = l.
Proof.
  revert tr. induction l as [|u l IH]; intros tr; simpl; [reflexivity |].
  rewrite !bind_run. simpl. rewrite extractSingle_url, IH. reflexivity.
Qed.

Lemma mapIO_extract_trace P l tr :
  (mapIO (extractSingleWeChatArticle P) l tr).2 = tr ++ (EvGet <$> l).
Proof.
  revert tr. induction l as [|u l IH]; intros tr; simpl.
  - rewrite app_nil_r. reflexivity.
  - rewrite !bind_run. simpl. rewrite IH, extractSingle_run. simpl.
    rewrite <- app_assoc. reflexivity.
Qed.

Lemma mapIO_extract_Forall P (Q : ExtractedWeChatArticle → Prop) l tr :
  (∀ u tr', Q (extractSingleWeChatArticle P u tr').1) →
  Forall Q (mapIO (extractSingleWeChatArticle P) l tr).1.
Proof.
  intros HQ. revert tr. induction l as [|u l IH]; intros tr; simpl.
  - constructor.
  - rewrite !bind_run. simpl. constructor; [apply HQ | apply IH].
Qed.

Lemma runWindows_urls P ws tr :
  List.map (List.map url) (runWindows P ws tr).1 = ws.
Proof.
  revert tr. induction ws as [|w ws IH]; intros tr; simpl; [reflexivity |].
  rewrite !bind_run. simpl. rewrite IH. f_equal. apply mapIO_extract_urls.
Qed.

Lemma requested_app evs1 evs2 :
  requested (evs1 ++ evs2) = requested evs1 ++ requested evs2.
Proof. apply omap_app. Qed.

Lemma requested_gets l : requested (EvGet <$> l) = l.
Proof. induction l as [|u l IH]; simpl; [reflexivity | f_equal; exact IH]. Qed.

Lemma paceBefore_trace ws tr :
  ∃ evs, (paceBefore ws tr).2 = tr ++ evs ∧ requested evs = [].
Proof.
  destruct ws; simpl.
  - exists []. rewrite app_nil_r. auto.
  - exists [EvDelay windowDelay]. auto.
Qed.

(** The requests made while the windows run are exactly their URLs, in
    order. *)
Lemma runWindows_trace P ws tr :
  ∃ evs, (runWindows P ws tr).2 = tr ++ evs ∧ requested evs = concat ws.
Proof.
  revert tr. induction ws as [|w ws IH]; intros tr; simpl.
  - exists []. rewrite app_nil_r. auto.
  - rewrite !bind_run. simpl. rewrite mapIO_extract_trace.
    destruct (paceBefore_trace ws (tr ++ (EvGet <$> w))) as (e1 & -> & H1).
    destruct (IH ((tr ++ (EvGet <$> w)) ++ e1)) as (e2 & -> & H2).
    exists ((EvGet <$> w) ++ e1 ++ e2). split.
    + rewrite <- !app_assoc. reflexivity.
    + rewrite !requested_app, requested_gets, H1, H2. reflexivity.
Qed.

Lemma runWindows_Forall P (Q : ExtractedWeChatArticle → Prop) ws tr :
  (∀ u tr', Q (extractSingleWeChatArticle P u tr').1) →
  Forall Q (concat (runWindows P ws tr).1).
Proof.
  intros HQ. revert tr. induction ws as [|w ws IH]; intros tr; simpl.
  - constructor.
  - rewrite !bind_run. simpl. apply Forall_app. split;
      [apply mapIO_extract_Forall, HQ | apply IH].
Qed.

(** The URLs of the results: the invalid ones, then the valid ones. *)
Lemma extractBatch_urls P urls tr :
  url <$> (extractBatchWeChatArticles P urls tr).1
  = List.filter (λ u, negb (isWeChatArticleUrl P u)) urls
    ++ List.filter (isWeChatArticleUrl P) urls.
Proof.
  rewrite extractBatch_windows. simpl. rewrite fmap_app. f_equal.
  - rewrite <- list_fmap_compose. apply list_fmap_id.
  - rewrite <- (concat_windowsOf2 (List.filter _ urls)) at 2.
    rewrite <- (runWindows_urls P (windowsOf2 _) tr) at 2.
    induction ((runWindows P (windowsOf2 (List.filter (isWeChatArticleUrl P) urls)) tr).1)
      as [|rs rss IH]; simpl; [reflexivity |].
    rewrite fmap_app, IH. reflexivity.
Qed.

Lemma filter_partition_length {A} (f : A → bool) (l : list A) :
  (length (List.filter (λ x, negb (f x)) l) + length (List.filter f l)
   = length l)%nat.
Proof.
  induction l as [|a l IH]; simpl; [reflexivity |].
  destruct (f a); simpl; lia.
Qed.

(** One result per input URL. *)
Lemma extractBatch_length P urls tr :
  length (extractBatchWeChatArticles P urls tr).1 = length urls.
Proof.
  rewrite <- (length_fmap url), extractBatch_urls, length_app.
  apply filter_partition_length.
Qed.

End FetcherFacts.

Section FetcherClaims.
Import Extractor ExtractorFacts Fetcher FetcherFacts.

(** C9.  The results of the Batch Fetcher are the failure entries of the
    invalid URLs, in input order, followed by the results of the valid URLs
    window by window; the windows hold the valid URLs two at a time, in
    input order, and each result stands at the place of its URL. *)
Theorem extractBatch_invalid_first_then_windows
    (P : Platform) (urls : list jsstring) (tr : Trace) :
  let valid := List.filter (isWeChatArticleUrl P) urls in
  let invalid := List.filter (λ u, negb (isWeChatArticleUrl P u)) urls in
  let perWindow := (runWindows P (windowsOf2 valid) tr).1 in
  (extractBatchWeChatArticles P urls tr).1
    = List.map invalidResult invalid ++ concat perWindow
  ∧ List.map (List.map url) perWindow = windowsOf2 valid
  ∧ concat (windowsOf2 valid) = valid
  ∧ Forall (λ w, (1 ≤ length w ≤ 2)%nat) (windowsOf2 valid).
Proof.
  simpl. rewrite extractBatch_windows. simpl.
  split; [reflexivity |]. split; [apply runWindows_urls |].
  split; [apply concat_windowsOf2 | apply windowsOf2_sizes].
Qed.

Lemma invalid_by_shape P u :
  parseURL P u = None
  ∨ (∃ o, parseURL P u = Some o
          ∧ (hostname o ≠ WECHAT_HOST
             ∨ startsWith ARTICLE_PREFIX (pathname o) = false)) →
  isWeChatArticleUrl P u = false.
Proof.
  unfold isWeChatArticleUrl, jsstring_eqb.
  intros [-> | (o & -> & [Hh|Hp])]; [reflexivity | |].
  - rewrite bool_decide_eq_false_2 by exact Hh. reflexivity.
  - rewrite Hp. apply andb_false_r.
Qed.

Lemma elem_of_filter_bool {A} (f : A → bool) (l : list A) x :
  x ∈ List.filter f l ↔ x ∈ l ∧ f x = true.
Proof. rewrite !list_elem_of_In. apply filter_In. Qed.

(** C6.  A URL of the input that does not parse, or whose host name is not
    [mp.weixin.qq.com], or whose path does not start with [/s/], gets the
    failure entry with the fixed reason, no other entry, and no request is
    made for it. *)
Theorem invalid_url_fails_without_fetch
    (P : Platform) (urls : list jsstring) (tr : Trace) (u : jsstring) :
  u ∈ urls →
  parseURL P u = None
  ∨ (∃ o, parseURL P u = Some o
          ∧ (hostname o ≠ WECHAT_HOST
             ∨ startsWith ARTICLE_PREFIX (pathname o) = false)) →
  let out := extractBatchWeChatArticles P urls tr in
  invalidResult u ∈ out.1
  ∧ error (invalidResult u) = Some MSG_INVALID_LINK
  ∧ (∀ r, r ∈ out.1 → url r = u → r = invalidResult u)
  ∧ ∃ evs, out.2 = tr ++ evs ∧ u ∉ requested evs.
Proof.
  intros Hin Hshape. apply invalid_by_shape in Hshape. simpl.
  rewrite extractBatch_windows. simpl.
  set (valid := List.filter (isWeChatArticleUrl P) urls).
  assert (Hvalid : u ∉ valid).
  { intros Hv. apply elem_of_filter_bool in Hv as [_ Hv]. congruence. }
  split; [| split; [reflexivity | split]].
  - apply elem_of_app. left. apply (list_elem_of_fmap_2 invalidResult).
    apply elem_of_filter_bool. rewrite Hshape. auto.
  - intros r Hr Hu. apply elem_of_app in Hr as [Hr|Hr].
    + apply list_elem_of_fmap in Hr as (u' & -> & _). simpl in Hu. congruence.
    + exfalso. apply Hvalid.
      rewrite <- (concat_windowsOf2 valid).
      rewrite <- (runWindows_urls P (windowsOf2 valid) tr).
      rewrite <- List.concat_map, <- Hu.
      apply (list_elem_of_fmap_2 url), Hr.
  - destruct (runWindows_trace P (windowsOf2 valid) tr) as (evs & Htr & Hreq).
    exists evs. split; [exact Htr |].
    rewrite Hreq, concat_windowsOf2. exact Hvalid.
Qed.

(** C6 on a list with one valid URL and one URL of another host. *)
Lemma invalid_url_fails_without_fetch_witness :
  let P := toyPlatform (λ _, Loaded fourParagraphs) in
  let urls := [articleLink; foreignLink] in
  let out := extractBatchWeChatArticles P urls [] in
  invalidResult (foreignLink) ∈ out.1
  ∧ error (invalidResult (foreignLink)) = Some MSG_INVALID_LINK
  ∧ (∀ r, r ∈ out.1 → url r = foreignLink
          → r = invalidResult (foreignLink))
  ∧ ∃ evs, out.2 = [] ++ evs ∧ foreignLink ∉ requested evs.
Proof.
  apply (invalid_url_fails_without_fetch
           (toyPlatform (λ _, Loaded fourParagraphs))
           [articleLink; foreignLink] []
           (foreignLink)).
  - right. left.
  - right. eexists. split; [vm_compute; reflexivity |].
    left. vm_compute. discriminate.
Defined.

Lemma invalidResult_contentXorError u : contentXorError (invalidResult u).
Proof. right. simpl. eauto. Qed.

(** C2.  Every result of [extractSingleWeChatArticle], and every element of
    the list returned by [extractBatchWeChatArticles], carries either a
    non-empty content and no error, or an error and the empty content. *)
Theorem results_content_xor_error (P : Platform) :
  (∀ u tr, contentXorError (extractSingleWeChatArticle P u tr).1)
  ∧ (∀ urls tr,
       Forall contentXorError (extractBatchWeChatArticles P urls tr).1).
Proof.
  split; [apply extractSingle_contentXorError |].
  intros urls tr. rewrite extractBatch_windows. simpl. apply Forall_app. split.
  - apply Forall_forall. intros r Hr.
    apply list_elem_of_fmap in Hr as (u & -> & _). apply invalidResult_contentXorError.
  - apply runWindows_Forall. apply extractSingle_contentXorError.
Qed.

End FetcherClaims.

(** ** Batch Orchestrator *)

Module OrchestratorFacts.
Import Orchestrator.

Lemma tallied_push st d e n :
  tallied st →
  xorb (isSuccessEntry e) (isFailureEntry e) = true →
  tallied {| db := d; results := results st ++ [e];
             successCount := (if isSuccessEntry e then S (successCount st)
                              else successCount st);
             failCount := (if isFailureEntry e then S (failCount st)
                           else failCount st);
             pauses := n |}.
Proof.
  intros (Hs & Hf & Hall) He. unfold tallied. simpl.
  rewrite !List.filter_app, !length_app. simpl.
  repeat split.
  - destruct (isSuccessEntry e); simpl; lia.
  - destruct (isFailureEntry e); simpl; lia.
  - apply Forall_app. split; [exact Hall | constructor; [exact He | constructor]].
Qed.

(** One iteration adds one entry and increments exactly one counter. *)
Lemma processArticle_tallied sv acct k article st :
  tallied st → tallied (processArticle sv acct k article st).
Proof.
  intros Hst. unfold processArticle, summaryFailed.
  repeat match goal with
         | |- context [if ?b then _ else _] => destruct b eqn:?
         | |- context [match ?x with _ => _ end] => destruct x eqn:?
         | |- tallied {| db := ?d; results := results st ++ [?e];
                         pauses := ?n |} =>
             apply (tallied_push st d e n Hst); reflexivity
         end.
Qed.

Lemma processArticle_length sv acct k article st :
  length (results (processArticle sv acct k article st)) = S (length (results st)).
Proof.
  unfold processArticle, summaryFailed.
  repeat match goal with
         | |- context [if ?b then _ else _] => destruct b eqn:?
         | |- context [match ?x with _ => _ end] => destruct x eqn:?
         end; simpl; rewrite length_app; simpl; lia.
Qed.

Lemma processAll_tallied sv acct k articles st :
  tallied st → tallied (processAll sv acct k articles st).
Proof.
  revert k st. induction articles as [|a l IH]; intros k st H; simpl; [exact H |].
  apply IH, processArticle_tallied, H.
Qed.

Lemma processAll_length sv acct k articles st :
  length (results (processAll sv acct k articles st))
  = (length (results st) + length articles)%nat.
Proof.
  revert k st. induction articles as [|a l IH]; intros k st; simpl; [lia |].
  rewrite IH, processArticle_length. lia.
Qed.

(** When every entry is of exactly one kind, the two kinds partition the
    list. *)
Lemma tallied_sum st :
  tallied st → (successCount st + failCount st = length (results st))%nat.
Proof.
  intros (-> & -> & Hall). induction Hall as [|e l He _ IH]; simpl; [reflexivity |].
  destruct (isSuccessEntry e), (isFailureEntry e); simpl in *;
    try discriminate; lia.
Qed.

Lemma upsertAccount_articles d name :
  articles (upsertAccount d name).2 = articles d.
Proof. unfold upsertAccount. destruct (accounts d !! name); reflexivity. Qed.

(** The row written by [prisma.article.upsert]: the update data over an
    existing row, the create data otherwise. *)
Lemma upsertArticle_stored d u update create :
  articles (upsertArticle d u update create).2 !! u
    = Some (upsertArticle d u update create).1
  ∧ articlePublishDate (upsertArticle d u update create).1
    = dataPublishDate (if articles d !! u is Some _ then update else create)
  ∧ articleAuthor (upsertArticle d u update create).1
    = dataAuthor (if articles d !! u is Some _ then update else create).
Proof.
  unfold upsertArticle. destruct (articles d !! u); simpl;
    rewrite lookup_insert_eq; auto.
Qed.

Lemma upsertArticle_articles d u update create :
  articles (upsertArticle d u update create).2
  = <[u := (upsertArticle d u update create).1]> (articles d).
Proof. unfold upsertArticle. destruct (articles d !! u); reflexivity. Qed.

Lemma upsertArticle_accounts d u update create :
  accounts (upsertArticle d u update create).2 = accounts d.
Proof. unfold upsertArticle. destruct (articles d !! u); reflexivity. Qed.

Lemma articleData_author sv k branch acct accId article :
  dataAuthor (articleData sv k branch acct accId article)
  = authorOrLabel article acct.
Proof.
  unfold articleData, authorOrLabel, or_else. simpl.
  destruct (Extractor.author article) as [[|c a]|]; reflexivity.
Qed.

Lemma authorOrLabel_nonempty article acct :
  acct ≠ [] → authorOrLabel article acct ≠ [].
Proof.
  unfold authorOrLabel.
  destruct (Extractor.author article) as [[|c a]|]; auto; discriminate.
Qed.

(** Once the summary is there and the first two upserts go through, the
    article row is in the store, whatever happens to the summary upsert. *)
Lemma processArticle_persists sv acct k article st r :
  hasError article = false →
  summarizeArticle sv k (Extractor.title article) (Extractor.content article) = inl r →
  prismaFault sv k UpsertAccount = None →
  prismaFault sv k UpsertArticle = None →
  articles (db (processArticle sv acct k article st))
  = articles
      (upsertArticle (upsertAccount (db st) acct).2 (Extractor.url article)
         (articleData sv k OnUpdate acct
            (accountRowId (upsertAccount (db st) acct).1) article)
         (articleData sv k OnCreate acct
            (accountRowId (upsertAccount (db st) acct).1) article)).2.
Proof.
  intros He Hs Ha Hb. unfold processArticle. rewrite He, Hs, Ha.
  destruct (upsertAccount (db st) acct) as [account d1]. rewrite Hb. simpl.
  destruct (upsertArticle d1 _ _ _) as [saved d2].
  destruct (prismaFault sv k UpsertSummary); reflexivity.
Qed.

End OrchestratorFacts.

Section OrchestratorClaims.
Import Orchestrator OrchestratorFacts.

(** C1.  For a list of 1 to 20 URLs the route answers with a report in
    which [successCount + failCount = totalProcessed = urls.length]: the
    Batch Fetcher returns one result per URL, the route records one entry
    per result, every entry is either a success or a failure, and the two
    counters count the entries of each kind. *)
Theorem report_counts_add_up
    (sv : Services) (urls : list jsstring) (acct : option jsstring)
    (d : Db) (tr : Trace) :
  (0 < length urls ≤ 20)%nat →
  ∃ report d' tr',
    postBatchSummarize sv {| bodyUrls := UrlsArray urls; bodyAccountName := acct |} d tr
      = (Status200 report, d', tr')
    ∧ (reportSuccessCount report + reportFailCount report = totalProcessed report)%nat
    ∧ totalProcessed report = length urls
    ∧ length (Fetcher.extractBatchWeChatArticles (platform sv) urls tr).1 = length urls
    ∧ length (reportResults report) = length urls
    ∧ reportSuccessCount report = length (List.filter isSuccessEntry (reportResults report))
    ∧ reportFailCount report = length (List.filter isFailureEntry (reportResults report))
    ∧ Forall (λ e, xorb (isSuccessEntry e) (isFailureEntry e) = true)
        (reportResults report).
Proof.
  intros [Hpos Hmax]. unfold postBatchSummarize. simpl.
  destruct (Nat.eqb_spec (length urls) 0) as [E|_]; [lia |].
  destruct (Nat.ltb_spec 20 (length urls)) as [E|_]; [lia |].
  rewrite FetcherFacts.bind_run. unfold ret.
  set (extracted := (Fetcher.extractBatchWeChatArticles (platform sv) urls tr).1).
  set (st0 := {| db := d; results := []; successCount := 0; failCount := 0;
                 pauses := 0 |}).
  assert (H0 : tallied st0) by (repeat split; constructor).
  pose proof (processAll_tallied sv (default DEFAULT_ACCOUNT acct) 0 extracted st0 H0)
    as Ht.
  pose proof (processAll_length sv (default DEFAULT_ACCOUNT acct) 0 extracted st0)
    as Hl.
  assert (He : length extracted = length urls)
    by apply FetcherFacts.extractBatch_length.
  eexists _, _, _. split; [reflexivity |]. simpl.
  rewrite (tallied_sum _ Ht), Hl, He. simpl.
  destruct Ht as (Hs & Hf & Hall). auto 10.
Qed.

(** C1 on the scenario of one article link and one malformed URL. *)
Lemma report_counts_add_up_witness :
  ∃ report d' tr',
    postBatchSummarize
      (toyServices (λ _, Loaded fourParagraphs) (js "no json here"))
      {| bodyUrls := UrlsArray [articleLink; js "not-a-url"];
         bodyAccountName := None |} emptyDb []
      = (Status200 report, d', tr')
    ∧ (reportSuccessCount report + reportFailCount report = totalProcessed report)%nat
    ∧ totalProcessed report = 2%nat
    ∧ length (Fetcher.extractBatchWeChatArticles
                (platform (toyServices (λ _, Loaded fourParagraphs) (js "no json here")))
                [articleLink; js "not-a-url"] []).1 = 2%nat
    ∧ length (reportResults report) = 2%nat
    ∧ reportSuccessCount report = length (List.filter isSuccessEntry (reportResults report))
    ∧ reportFailCount report = length (List.filter isFailureEntry (reportResults report))
    ∧ Forall (λ e, xorb (isSuccessEntry e) (isFailureEntry e) = true)
        (reportResults report).
Proof.
  apply (report_counts_add_up
           (toyServices (λ _, Loaded fourParagraphs) (js "no json here"))
           [articleLink; js "not-a-url"] None emptyDb []).
  simpl. lia.
Defined.

(** C10 (counterexample).  A request with the empty account label, for a
    page on which no author selector matches, is processed successfully and
    leaves an article row whose author is the empty string. *)
Lemma stored_author_can_be_empty :
  let out := postBatchSummarize
               (toyServices (λ _, Loaded anonymousPage) (js "fine"))
               {| bodyUrls := UrlsArray [articleLink];
                  bodyAccountName := Some [] |} emptyDb [] in
  (∃ report, out.1.1 = Status200 report ∧ reportSuccessCount report = 1%nat)
  ∧ articleAuthor <$> (articles out.1.2 !! articleLink) = Some [].
Proof.
  vm_compute. split; [eexists; split; reflexivity | reflexivity].
Qed.

(** C10 (amended).  For an article without error whose summary is obtained
    and whose account and article upserts go through, the store holds a row
    under the URL of the article; its publish date is the extracted one, or
    the reading of the clock taken for the branch that applies when there is
    none; its author is the extracted one, or the account label when that is
    absent or empty, and so is not empty when the account label is not
    empty.  The data of the update branch and of the create branch are
    built by the same rule. *)
Theorem persisted_article_has_date_and_author
    (sv : Services) (acct : jsstring) (k : nat)
    (article : Extractor.ExtractedWeChatArticle) (st : State)
    (r : Summarizer.SummaryResult) :
  hasError article = false →
  summarizeArticle sv k (Extractor.title article) (Extractor.content article) = inl r →
  prismaFault sv k UpsertAccount = None →
  prismaFault sv k UpsertArticle = None →
  let branch := if storedArticle st (Extractor.url article) is Some _
                then OnUpdate else OnCreate in
  (∃ row,
     storedArticle (processArticle sv acct k article st) (Extractor.url article)
       = Some row
     ∧ articlePublishDate row
       = match Extractor.publishDate article with
         | Some date => date
         | None => DateParser.ClockReading (clock sv k branch)
         end
     ∧ articleAuthor row = authorOrLabel article acct
     ∧ (acct ≠ [] → articleAuthor row ≠ []))
  ∧ ∀ b accId,
      dataAuthor (articleData sv k b acct accId article) = authorOrLabel article acct
      ∧ dataPublishDate (articleData sv k b acct accId article)
        = match Extractor.publishDate article with
          | Some date => date
          | None => DateParser.ClockReading (clock sv k b)
          end.
Proof.
  intros He Hs Ha Hb. simpl. split.
  - unfold storedArticle.
    rewrite (processArticle_persists sv acct k article st r He Hs Ha Hb).
    set (d1 := (upsertAccount (db st) acct).2).
    set (accId := accountRowId (upsertAccount (db st) acct).1).
    destruct (upsertArticle_stored d1 (Extractor.url article)
                (articleData sv k OnUpdate acct accId article)
                (articleData sv k OnCreate acct accId article))
      as (Hrow & Hdate & Hauthor).
    eexists. split; [exact Hrow |].
    assert (Hd1 : articles d1 = articles (db st))
      by apply upsertAccount_articles.
    rewrite Hdate, Hauthor, Hd1.
    destruct (articles (db st) !! Extractor.url article); cbv beta iota.
    all: split; [reflexivity | split; [apply articleData_author |]].
    all: intros Hacct E; apply (authorOrLabel_nonempty article acct Hacct).
    + rewrite <- (articleData_author sv k OnUpdate acct accId article). exact E.
    + rewrite <- (articleData_author sv k OnCreate acct accId article). exact E.
  - intros b accId.
    split; [apply (articleData_author sv k b acct accId article) | reflexivity].
Qed.

(** The amended C10 on a page without author or date, under the default
    account label. *)
Lemma persisted_article_has_date_and_author_witness :
  ∃ row,
    storedArticle
      (processArticle (toyServices (λ _, Loaded anonymousPage) (js "fine"))
         DEFAULT_ACCOUNT 0 anonymousArticle freshState)
      (Extractor.url anonymousArticle) = Some row
    ∧ articleAuthor row = DEFAULT_ACCOUNT
    ∧ articlePublishDate row = DateParser.ClockReading 0.
Proof.
  destruct (persisted_article_has_date_and_author
              (toyServices (λ _, Loaded anonymousPage) (js "fine"))
              DEFAULT_ACCOUNT 0 anonymousArticle freshState
              (Summarizer.fallbackParsing (js "fine")))
    as [(row & Hrow & Hdate & Hauthor & _) _].
  - reflexivity.
  - reflexivity.
  - reflexivity.
  - reflexivity.
  - exists row. split; [exact Hrow |]. split; [exact Hauthor | exact Hdate].
Defined.

End OrchestratorClaims.

(** ** Date Parser *)

Module DateParserFacts.
Import DateParser.

Lemma digitRun_spec hi s :
  (digitRun hi s ≤ hi)%nat ∧ (digitRun hi s ≤ length s)%nat
  ∧ Forall (λ c, isDigit c = true) (take (digitRun hi s) s).
Proof.
  revert s. induction hi as [|hi IH]; intros s; simpl.
  - repeat split; try lia. constructor.
  - destruct s as [|c r]; simpl; [repeat split; try lia; constructor |].
    destruct (isDigit c) eqn:Hc; simpl.
    + destruct (IH r) as (H1 & H2 & H3). repeat split; try lia.
      constructor; assumption.
    + repeat split; try lia. constructor.
Qed.

(** A run of digits at the head of the text is seen by [digitRun]. *)
Lemma digitRun_ge hi (d rest : jsstring) :
  Forall (λ c, isDigit c = true) d → (length d ≤ hi)%nat →
  (length d ≤ digitRun hi (d ++ rest))%nat.
Proof.
  revert hi. induction d as [|c d IH]; intros hi Hd Hlen; simpl; [lia |].
  destruct hi as [|hi]; simpl in *; [lia |].
  inversion Hd as [|? ? Hc Hd']; subst. rewrite Hc.
  specialize (IH hi Hd'). lia.
Qed.

Lemma backtrack_sound lo k s cont caps rest :
  (lo ≤ k)%nat →
  backtrack lo k s cont = Some (caps, rest) →
  ∃ j caps', (lo ≤ j ≤ k)%nat ∧ caps = take j s :: caps'
             ∧ cont (drop j s) = Some (caps', rest).
Proof.
  induction k as [|k IH]; simpl; intros Hlo.
  - destruct (cont (drop 0 s)) as [[caps' rest']|] eqn:E; [| discriminate].
    intros [= <- <-]. exists 0%nat, caps'. repeat split; [lia | lia | exact E].
  - destruct (cont (drop (S k) s)) as [[caps' rest']|] eqn:E.
    + intros [= <- <-]. exists (S k), caps'. repeat split; [lia | lia | exact E].
    + destruct (Nat.leb_spec lo k) as [Hle|Hgt]; [| discriminate].
      intros H. destruct (IH Hle H) as (j & caps' & Hj & -> & Hc).
      exists j, caps'. repeat split; [lia | lia | exact Hc].
Qed.

Lemma backtrack_complete lo k s cont j :
  (lo ≤ j ≤ k)%nat → is_Some (cont (drop j s)) →
  is_Some (backtrack lo k s cont).
Proof.
  induction k as [|k IH]; simpl; intros Hj Hc.
  - assert (j = 0%nat) as -> by lia.
    destruct Hc as [[caps rest] ->]. eauto.
  - destruct (cont (drop (S k) s)) as [[caps rest]|] eqn:E; [eauto |].
    destruct (Nat.leb_spec lo k) as [Hle|Hgt].
    + apply IH; [| exact Hc]. destruct (decide (j = S k)) as [->|Hne].
      * rewrite E in Hc. destruct Hc; discriminate.
      * lia.
    + assert (j = S k) as -> by lia. rewrite E in Hc. destruct Hc; discriminate.
Qed.

(** What [matchHere] accepts is an instance of the pattern. *)
Lemma matchHere_sound p s caps rest :
  matchHere p s = Some (caps, rest) → ∃ w, s = w ++ rest ∧ Matches p w caps.
Proof.
  revert s caps rest. induction p as [|[c|lo hi] p IH]; intros s caps rest; simpl.
  - intros [= <- <-]. exists []. split; [reflexivity | constructor].
  - destruct s as [|a r]; [discriminate |].
    destruct (N.eqb_spec a c) as [->|_]; [| discriminate].
    intros H. destruct (IH _ _ _ H) as (w & -> & Hw).
    exists (c :: w). split; [reflexivity | constructor; exact Hw].
  - destruct (Nat.ltb_spec (digitRun hi s) lo) as [_|Hlo]; [discriminate |].
    intros H. apply backtrack_sound in H as (j & caps' & Hj & -> & Hc); [| exact Hlo].
    destruct (IH _ _ _ Hc) as (w & Hs & Hw).
    destruct (digitRun_spec hi s) as (Hhi & Hlen & Hdig).
    exists (take j s ++ w). split.
    + rewrite <- app_assoc, <- Hs, take_drop. reflexivity.
    + constructor; [| rewrite length_take; lia | exact Hw].
      replace (take j s) with (take j (take (digitRun hi s) s))
        by (rewrite take_take; f_equal; lia).
      apply Forall_take, Hdig.
Qed.

(** Every instance of the pattern at the head of the text is accepted
    (possibly with another, greedier, choice of groups). *)
Lemma matchHere_complete p w caps :
  Matches p w caps → ∀ rest, is_Some (matchHere p (w ++ rest)).
Proof.
  induction 1 as [| c p w caps _ IH | lo hi p d w caps Hd Hlen _ IH];
    intros rest; simpl.
  - eauto.
  - rewrite N.eqb_refl. apply IH.
  - rewrite <- app_assoc.
    pose proof (digitRun_ge hi d (w ++ rest) Hd (proj2 Hlen)) as Hrun.
    destruct (Nat.ltb_spec (digitRun hi (d ++ w ++ rest)) lo) as [Hlt|_]; [lia |].
    apply (backtrack_complete lo _ _ _ (length d)); [lia |].
    rewrite drop_app_length. apply IH.
Qed.

Lemma Matches_groups p w caps : Matches p w caps → length caps = groupCount p.
Proof.
  unfold groupCount. induction 1; simpl; [reflexivity | assumption | lia].
Qed.

(** [regexMatch] returns an instance of the pattern found in the text, with
    the matched text first and the groups after it. *)
Lemma regexMatch_sound p s m :
  regexMatch p s = Some m →
  ∃ pre w post caps, s = pre ++ w ++ post ∧ Matches p w caps ∧ m = w :: caps.
Proof.
  induction s as [|c s IH]; simpl.
  - destruct (matchHere p []) as [[caps rest]|] eqn:E; [| discriminate].
    intros [= <-]. apply matchHere_sound in E as (w & Hs & Hw).
    exists [], w, rest, caps. simpl. split; [exact Hs |]. split; [exact Hw |].
    destruct w; [| discriminate]. simpl in Hs. subst rest. reflexivity.
  - destruct (matchHere p (c :: s)) as [[caps rest]|] eqn:E.
    + intros [= <-]. apply matchHere_sound in E as (w & Hs & Hw).
      exists [], w, rest, caps. simpl. split; [exact Hs |]. split; [exact Hw |].
      f_equal. change (take (S (length s) - length rest) (c :: s) = w).
      change (S (length s)) with (length (c :: s)). rewrite Hs.
      rewrite length_app. replace (length w + length rest - length rest)%nat
        with (length w) by lia.
      apply take_app_length.
    + intros H. destruct (IH H) as (pre & w & post & caps & -> & Hw & ->).
      exists (c :: pre), w, post, caps. auto.
Qed.

Lemma regexMatch_complete p s : Occurs p s → is_Some (regexMatch p s).
Proof.
  intros (pre & w & post & caps & -> & Hw).
  induction pre as [|c pre IH]; simpl.
  - destruct (matchHere_complete p w caps Hw post) as [[caps' rest] E].
    destruct (w ++ post); simpl; rewrite E; eauto.
  - destruct (matchHere p (c :: pre ++ w ++ post)) as [[caps' rest]|]; [eauto |].
    exact IH.
Qed.

(** [s.match(p)] is [null] exactly when the text holds no instance of the
    pattern. *)
Lemma regexMatch_None_iff p s : regexMatch p s = None ↔ ¬ Occurs p s.
Proof.
  split.
  - intros E Hocc. apply regexMatch_complete in Hocc as [m Hm]. congruence.
  - intros Hno. destruct (regexMatch p s) as [m|] eqn:E; [| reflexivity].
    exfalso. apply Hno. apply regexMatch_sound in E as (pre & w & post & caps & ? & ? & _).
    exists pre, w, post, caps. auto.
Qed.

Lemma regexMatch_length p s m :
  regexMatch p s = Some m → length m = S (groupCount p).
Proof.
  intros H. apply regexMatch_sound in H as (pre & w & post & caps & _ & Hw & ->).
  simpl. f_equal. eapply Matches_groups, Hw.
Qed.

(** The loop over the three patterns, one pattern at a time. *)
Lemma parseChineseDate_cascade year s :
  parseChineseDate year s =
    match regexMatch pattern1 s with
    | Some m => Some (DateOf (parseInt (group m 1)) (parseInt (group m 2) - 1)
                             (parseInt (group m 3)))
    | None =>
        match regexMatch pattern2 s with
        | Some m => Some (DateOf (parseInt (group m 1)) (parseInt (group m 2) - 1)
                                 (parseInt (group m 3)))
        | None =>
            match regexMatch pattern3 s with
            | Some m => Some (DateOf year (parseInt (group m 1) - 1)
                                     (parseInt (group m 2)))
            | None => None
            end
        end
    end.
Proof.
  unfold parseChineseDate, patterns. simpl.
  destruct (regexMatch pattern1 s) as [m1|] eqn:E1.
  { rewrite (regexMatch_length _ _ _ E1). reflexivity. }
  destruct (regexMatch pattern2 s) as [m2|] eqn:E2.
  { rewrite (regexMatch_length _ _ _ E2). reflexivity. }
  destruct (regexMatch pattern3 s) as [m3|] eqn:E3; [| reflexivity].
  rewrite (regexMatch_length _ _ _ E3). reflexivity.
Qed.

End DateParserFacts.

Section DateParserClaims.
Import DateParser DateParserFacts.

(** C8.  [parseChineseDate] tries [YYYY年M月D日], then [YYYY-M-D], then
    [M月D日], and builds the date from the leftmost match of the first of
    them that matches: year, month minus one and day from the three groups
    of the first two patterns, the current year with month minus one and
    day from the two groups of the third.  It returns [undefined] exactly
    when the text holds no instance of any of the three patterns. *)
Theorem parseChineseDate_first_pattern_wins (year : Z) (s : jsstring) :
  parseChineseDate year s =
    match regexMatch pattern1 s with
    | Some m => Some (DateOf (parseInt (group m 1)) (parseInt (group m 2) - 1)
                             (parseInt (group m 3)))
    | None =>
        match regexMatch pattern2 s with
        | Some m => Some (DateOf (parseInt (group m 1)) (parseInt (group m 2) - 1)
                                 (parseInt (group m 3)))
        | None =>
            match regexMatch pattern3 s with
            | Some m => Some (DateOf year (parseInt (group m 1) - 1)
                                     (parseInt (group m 2)))
            | None => None
            end
        end
    end
  ∧ patterns = [pattern1; pattern2; pattern3]
  ∧ (∀ p, regexMatch p s = None ↔ ¬ Occurs p s)
  ∧ (parseChineseDate year s = None
     ↔ ¬ Occurs pattern1 s ∧ ¬ Occurs pattern2 s ∧ ¬ Occurs pattern3 s).
Proof.
  split; [apply parseChineseDate_cascade |]. split; [reflexivity |].
  split; [intros p; apply regexMatch_None_iff |].
  rewrite parseChineseDate_cascade, <- !regexMatch_None_iff.
  destruct (regexMatch pattern1 s), (regexMatch pattern2 s),
    (regexMatch pattern3 s); split; try discriminate; try tauto;
    intros (? & ? & ?); discriminate.
Qed.

End DateParserClaims.

(** ** Summarizer Client *)

Module SummarizerFacts.
Import Summarizer.

Lemma lastIndexOf_None c s : lastIndexOf c s = None ↔ c ∉ s.
Proof.
  induction s as [|a s IH]; simpl.
  - split; [intros _ H; inversion H | reflexivity].
  - destruct (lastIndexOf c s) as [k|].
    + split; [discriminate |]. intros H. exfalso.
      assert (c ∉ s) as Hs by (intros Hin; apply H; right; exact Hin).
      apply IH in Hs. discriminate.
    + destruct (N.eqb_spec a c) as [->|Hne].
      * split; [discriminate | intros H; exfalso; apply H; left].
      * split; [| reflexivity]. intros _ Hin.
        apply elem_of_cons in Hin as [->|Hin]; [congruence |].
        revert Hin. apply IH. reflexivity.
Qed.

Lemma lastIndexOf_Some c s k :
  lastIndexOf c s = Some k →
  take (S k) s = take k s ++ [c] ∧ c ∉ drop (S k) s.
Proof.
  revert k. induction s as [|a s IH]; intros k; simpl; [discriminate |].
  destruct (lastIndexOf c s) as [j|] eqn:E.
  - intros [= <-]. destruct (IH j eq_refl) as [Ht Hd].
    split; [simpl; f_equal; exact Ht | exact Hd].
  - destruct (N.eqb_spec a c) as [->|_]; [| discriminate].
    intros [= <-]. simpl. rewrite drop_0. split; [reflexivity |].
    apply lastIndexOf_None, E.
Qed.

(** The text matched by [/\{[\s\S]*\}/] runs from the first opening brace
    to the last closing brace. *)
Lemma jsonMatch_Some response text :
  jsonMatch response = Some text →
  ∃ pre mid post,
    response = pre ++ text ++ post ∧ text = LBRACE :: mid ++ [RBRACE]
    ∧ (LBRACE ∉ pre) ∧ (RBRACE ∉ post).
Proof.
  induction response as [|c r IH]; simpl; [discriminate |].
  destruct (N.eqb_spec c LBRACE) as [->|Hne].
  - destruct (lastIndexOf RBRACE r) as [k|] eqn:E; [| discriminate].
    intros [= <-]. destruct (lastIndexOf_Some _ _ _ E) as [Ht Hd].
    exists [], (take k r), (drop (S k) r). simpl.
    rewrite Ht. repeat split; [| intros H; inversion H | exact Hd].
    rewrite <- Ht, take_drop. reflexivity.
  - intros H. destruct (IH H) as (pre & mid & post & -> & Ht & Hpre & Hpost).
    exists (c :: pre), mid, post. repeat split; [exact Ht | | exact Hpost].
    intros Hin. apply elem_of_cons in Hin as [E|Hin]; [congruence | auto].
Qed.

(** No match: no closing brace comes after an opening brace. *)
Lemma jsonMatch_None response :
  jsonMatch response = None ↔
  ¬ ∃ pre mid post, response = pre ++ [LBRACE] ++ mid ++ [RBRACE] ++ post.
Proof.
  induction response as [|c r IH]; simpl.
  - split; [| reflexivity]. intros _ (pre & mid & post & H).
    destruct pre; discriminate.
  - destruct (N.eqb_spec c LBRACE) as [->|Hne].
    + destruct (lastIndexOf RBRACE r) as [k|] eqn:E.
      * split; [discriminate |]. intros H. exfalso. apply H.
        destruct (lastIndexOf_Some _ _ _ E) as [Ht _].
        exists [], (take k r), (drop (S k) r). simpl. f_equal.
        rewrite <- (take_drop (S k) r) at 1. rewrite Ht, <- app_assoc.
        reflexivity.
      * split; [| reflexivity]. intros _ (pre & mid & post & H).
        apply lastIndexOf_None in E. apply E.
        destruct pre as [|a pre]; simpl in H; inversion H; subst;
          repeat (rewrite elem_of_app || rewrite elem_of_cons); auto 10.
    + rewrite IH. split; intros H (pre & mid & post & E); apply H.
      * destruct pre as [|a pre]; simpl in E; inversion E; subst; [congruence |].
        eauto.
      * exists (c :: pre), mid, post. simpl. rewrite E. reflexivity.
Qed.

Lemma splitLines_nonempty s : splitLines s ≠ [].
Proof.
  destruct s as [|c s]; simpl; [discriminate |].
  destruct (c =? LF); [discriminate |]. destruct (splitLines s); discriminate.
Qed.

(** Splitting at line feeds loses nothing, and no line holds a line feed. *)
Lemma join_splitLines s : join [LF] (splitLines s) = s.
Proof.
  induction s as [|c s IH]; simpl; [reflexivity |].
  pose proof (splitLines_nonempty s) as Hne.
  destruct (splitLines s) as [|line lines] eqn:E; [congruence |].
  destruct (N.eqb_spec c LF) as [->|_].
  - change (join [LF] ([] :: line :: lines))
      with ([] ++ [LF] ++ join [LF] (line :: lines)).
    rewrite IH. reflexivity.
  - destruct lines; simpl in *; rewrite <- IH; reflexivity.
Qed.

Lemma splitLines_no_LF s : Forall (λ line, LF ∉ line) (splitLines s).
Proof.
  induction s as [|c s IH]; simpl.
  - repeat constructor. intros H. inversion H.
  - destruct (N.eqb_spec c LF) as [->|Hne].
    + constructor; [intros H; inversion H | exact IH].
    + destruct (splitLines s) as [|line lines]; inversion IH; subst;
        constructor; auto.
      * intros H. apply elem_of_cons in H as [E|H]; [congruence | inversion H].
      * intros H. apply elem_of_cons in H as [E|H]; [congruence | auto].
Qed.

Lemma fallback_summary_length (t : jsstring) :
  (length (substring0 200 t ++ ELLIPSIS) ≤ 203)%nat.
Proof.
  unfold substring0. rewrite length_app, length_take.
  change (length ELLIPSIS) with 3%nat. lia.
Qed.

End SummarizerFacts.

Section SummarizerClaims.
Import Summarizer SummarizerFacts.

(** C7.  When the answer holds no brace-delimited text, or [JSON.parse]
    throws on that text, [parseSummaryResponse] returns the result of the
    fallback: the summary is the first three non-blank lines joined by
    spaces, cut at 200 characters and followed by three dots (at most 203
    characters), the key points are those lines, the sentiment is
    [neutral] and the category the uncategorized label. *)
Theorem parseSummaryResponse_falls_back
    (JSON_parse : jsstring → option (list (jsstring * Json)))
    (response : jsstring) :
  jsonMatch response = None
  ∨ (∃ text, jsonMatch response = Some text ∧ JSON_parse text = None) →
  let lines :=
    take 3 (List.filter (λ line, truthy (trim line)) (splitLines response)) in
  parseSummaryResponse JSON_parse response
    = {| content := JString (take 200 (join [SPACE] lines) ++ js "...");
         keyPoints := JArray (List.map JString lines);
         sentiment := JString (js "neutral");
         category := JString UNCATEGORIZED |}
  ∧ (length (take 200 (join [SPACE] lines) ++ js "...") ≤ 203)%nat
  ∧ (length lines ≤ 3)%nat
  ∧ Forall (λ line, trim line ≠ []) lines.
Proof.
  intros Hcase. simpl. split; [| split; [| split]].
  - unfold parseSummaryResponse.
    destruct Hcase as [-> | (text & -> & ->)]; reflexivity.
  - apply fallback_summary_length.
  - rewrite length_take. lia.
  - apply Forall_take, Forall_forall. intros line Hin.
    apply list_elem_of_In, filter_In in Hin as [_ Ht].
    destruct (trim line); [discriminate | discriminate].
Qed.

(** C7 on an answer of one line without braces. *)
Lemma parseSummaryResponse_falls_back_witness :
  jsonMatch (js "Summary: fine.") = None
  ∧ parseSummaryResponse (λ _, None) (js "Summary: fine.")
    = {| content := JString (js "Summary: fine....");
         keyPoints := JArray [JString (js "Summary: fine.")];
         sentiment := JString (js "neutral");
         category := JString UNCATEGORIZED |}.
Proof.
  split; [reflexivity |].
  apply (parseSummaryResponse_falls_back (λ _, None) (js "Summary: fine.")).
  left. reflexivity.
Defined.

End SummarizerClaims.

(** * Further properties of the code *)

(** ** Content Cleaner: what is kept *)

Module CleanerMore.
Import Cleaner CleanerFacts.

Lemma visibleChars_app s t : visibleChars (s ++ t) = visibleChars s ++ visibleChars t.
Proof. apply List.filter_app. Qed.

Lemma visibleChars_white w :
  Forall (λ c, isWhiteSpace c = true) w → visibleChars w = [].
Proof.
  induction 1 as [|c w Hc _ IH]; simpl; [reflexivity |]. rewrite Hc. exact IH.
Qed.

Lemma visibleChars_collapse b s :
  visibleChars (collapse_from b s) = visibleChars s.
Proof.
  revert b. induction s as [|c s IH]; intros b; simpl; [reflexivity |].
  destruct (isWhiteSpace c) eqn:Hc; simpl.
  - destruct b; simpl; apply IH.
  - rewrite Hc. simpl. f_equal. apply IH.
Qed.

Lemma visibleChars_trim s : visibleChars (trim s) = visibleChars s.
Proof.
  unfold trim.
  destruct (trimStart_split s) as (w1 & H1 & Hw1).
  destruct (trimEnd_split (trimStart s)) as (w2 & H2 & Hw2).
  rewrite H1 at 2. rewrite H2 at 2.
  rewrite !visibleChars_app, (visibleChars_white _ Hw1), (visibleChars_white _ Hw2).
  rewrite app_nil_r. reflexivity.
Qed.

End CleanerMore.

Section CleanerExtras.
Import Cleaner CleanerFacts CleanerMore.

(** X1.  The cleaner only touches white space: the visible characters of
    the input are those of the output, in the same order, followed by those
    of the part that the truncation cut off. *)
Theorem cleanContent_keeps_visible_characters (s : jsstring) :
  visibleChars s
  = visibleChars (cleanContent s)
    ++ visibleChars (drop maxContentLength (trim (collapseWhitespace s))).
Proof.
  rewrite cleanContent_unfold, <- visibleChars_app, take_drop, visibleChars_trim.
  unfold collapseWhitespace. rewrite visibleChars_collapse. reflexivity.
Qed.

(** X2.  The shape of every output of the cleaner: at most 15000
    characters, no white space other than single spaces between visible
    characters, no white space at the start; it ends in white space only
    when it was cut, and then it has the maximal length and ends in a
    space. *)
Theorem cleanContent_shape (s : jsstring) :
  (length (cleanContent s) ≤ maxContentLength)%nat
  ∧ collapsed (cleanContent s)
  ∧ (∀ c, head (cleanContent s) = Some c → isWhiteSpace c = false)
  ∧ (∀ c, last (cleanContent s) = Some c → isWhiteSpace c = true →
          c = SPACE ∧ length (cleanContent s) = maxContentLength).
Proof.
  split; [apply cleanContent_length |].
  split; [apply cleanContent_collapsed |]. split.
  - intros c Hc. destruct (cleanContent s) as [|a r] eqn:E; [discriminate |].
    injection Hc as ->. eapply cleanContent_head, E.
  - intros c Hl Hw. split.
    + eapply collapsed_from_ws; [apply cleanContent_collapsed | | exact Hw].
      eapply last_Some_elem_of, Hl.
    + rewrite cleanContent_unfold in *. rewrite length_take.
      destruct (Nat.le_gt_cases (length (trim (collapseWhitespace s))) maxContentLength)
        as [Hle|Hgt]; [| lia].
      rewrite take_ge in Hl by exact Hle. apply trim_last in Hl. congruence.
Qed.

End CleanerExtras.

(** ** Page Extractor: the fallback lists and the text of the content *)

Module ExtractorMore.
Import Cleaner CleanerFacts CleanerMore Extractor ExtractorFacts.

Lemma trim_tight s : trim s ≠ [] → tight (trim s).
Proof.
  intros Hne. split.
  - destruct (trim s) as [|c r] eqn:E; [congruence |].
    exists c, r. split; [reflexivity | eapply trim_head, E].
  - destruct (last (trim s)) as [c|] eqn:E.
    + exists c. split; [reflexivity | eapply trim_last, E].
    + apply last_None in E. congruence.
Qed.

Lemma firstNonEmptyText_spec doc sels :
  firstVisibleText doc sels (firstNonEmptyText doc sels).
Proof.
  induction sels as [|sel sels IH]; simpl.
  - left. split; [reflexivity | constructor].
  - destruct (trim (firstText doc sel)) as [|c r] eqn:E; simpl.
    + destruct IH as [[-> Hall] | (before & sel' & after & -> & Hall & Ht & Htight)].
      * left. split; [reflexivity | constructor; assumption].
      * right. exists (sel :: before), sel', after.
        repeat split; try assumption; try apply Htight. constructor; assumption.
    + right. exists [], sel, sels. rewrite E.
      repeat split; try constructor; rewrite <- E; apply trim_tight; congruence.
Qed.

Lemma parseChineseDate_empty year : DateParser.parseChineseDate year [] = None.
Proof. reflexivity. Qed.

(** The flag of the scanner after a piece of text. *)
Lemma collapse_from_app b s t :
  collapse_from b (s ++ t)
  = collapse_from b s ++ collapse_from (endsInWhiteSpace b s) t.
Proof.
  revert b. induction s as [|c s IH]; intros b; [reflexivity |].
  assert (Hends : endsInWhiteSpace b (c :: s)
                  = endsInWhiteSpace (isWhiteSpace c) s).
  { unfold endsInWhiteSpace. destruct s as [|c' s']; [reflexivity |].
    rewrite last_cons_cons. destruct (last (c' :: s')) eqn:E; [reflexivity |].
    apply last_None in E. discriminate. }
  rewrite Hends. simpl.
  destruct (isWhiteSpace c) eqn:Hc.
  - destruct b; rewrite IH; reflexivity.
  - rewrite IH. reflexivity.
Qed.

(** Before a visible character the flag does not matter. *)
Lemma collapse_from_visible_head b c s :
  isWhiteSpace c = false → collapse_from b (c :: s) = collapse_from false (c :: s).
Proof. intros Hc. simpl. rewrite Hc. reflexivity. Qed.

Lemma tight_ends b s : tight s → endsInWhiteSpace b s = false.
Proof. intros [_ (c & Hl & Hc)]. unfold endsInWhiteSpace. rewrite Hl. exact Hc. Qed.

Lemma collapse_tight s : tight s → tight (collapseWhitespace s).
Proof.
  intros [(c & r & -> & Hc) (l & Hl & Hlc)]. unfold collapseWhitespace. split.
  - simpl. rewrite Hc. eauto.
  - apply last_Some in Hl as [s' Hs]. rewrite Hs, collapse_from_app. simpl.
    rewrite Hlc. exists l. split; [apply last_snoc | exact Hlc].
Qed.

(** The paragraphs as [extractContent] concatenates them. *)
Lemma fold_appendBlock bs acc :
  fold_left appendBlock bs acc
  = acc ++ concat (List.map (λ t, t ++ [LF; LF])
                     (List.filter (λ t, (10 <? length t)%nat) (List.map trim bs))).
Proof.
  revert acc. induction bs as [|b bs IH]; intros acc; simpl.
  - rewrite app_nil_r. reflexivity.
  - rewrite IH. unfold appendBlock.
    destruct (Nat.ltb_spec 10 (length (trim b))) as [Hlt|Hge]; simpl.
    + destruct (trim b) eqn:E; [simpl in Hlt; lia |]. simpl.
      rewrite <- !app_assoc. simpl. rewrite <- !app_assoc. reflexivity.
    + rewrite andb_false_r. reflexivity.
Qed.

Lemma collapse_paragraphs ts :
  Forall tight ts →
  collapse_from false (concat (List.map (λ t, t ++ [LF; LF]) ts))
  = concat (List.map (λ t, collapseWhitespace t ++ [SPACE]) ts).
Proof.
  induction 1 as [|t ts Ht Hts IH]; simpl; [reflexivity |].
  rewrite <- !app_assoc, collapse_from_app, (tight_ends _ _ Ht). f_equal.
  simpl. f_equal.
  destruct ts as [|t' ts']; [reflexivity |].
  inversion Hts as [|? ? [(c & r & -> & Hc) _] _]; subst.
  simpl in *. rewrite Hc in *. exact IH.
Qed.

Lemma join_spaced ts :
  ts ≠ [] →
  concat (List.map (λ t, t ++ [SPACE]) ts) = Summarizer.join [SPACE] ts ++ [SPACE].
Proof.
  induction ts as [|t ts IH]; [congruence | intros _].
  destruct ts as [|t' ts']; [simpl; rewrite app_nil_r; reflexivity |].
  change (concat (List.map (λ t0, t0 ++ [SPACE]) (t :: t' :: ts')))
    with ((t ++ [SPACE]) ++ concat (List.map (λ t0, t0 ++ [SPACE]) (t' :: ts'))).
  rewrite IH by discriminate.
  change (Summarizer.join [SPACE] (t :: t' :: ts'))
    with (t ++ [SPACE] ++ Summarizer.join [SPACE] (t' :: ts')).
  rewrite <- !app_assoc. reflexivity.
Qed.

Lemma join_tight ts :
  ts ≠ [] → Forall tight ts → tight (Summarizer.join [SPACE] ts).
Proof.
  induction ts as [|t ts IH]; [congruence | intros _ Hall].
  inversion Hall as [|? ? Ht Hts]; subst.
  destruct ts as [|t' ts']; [exact Ht |].
  change (Summarizer.join [SPACE] (t :: t' :: ts'))
    with (t ++ [SPACE] ++ Summarizer.join [SPACE] (t' :: ts')).
  destruct (IH ltac:(discriminate) Hts) as [_ (l & Hl & Hlc)].
  destruct Ht as [(c & r & -> & Hc) _]. split.
  - simpl. eauto.
  - exists l. split; [| exact Hlc].
    apply last_Some in Hl as [s' ->].
    rewrite !app_assoc. apply last_snoc.
Qed.

Lemma trim_tight_space s : tight s → trim (s ++ [SPACE]) = s.
Proof.
  intros [(c & r & -> & Hc) (l & Hl & Hlc)]. unfold trim.
  rewrite trimStart_fixed by (simpl; exact Hc).
  unfold trimEnd. rewrite reverse_app. simpl.
  rewrite trimStart_fixed; [apply reverse_involutive |].
  destruct (reverse (c :: r)) as [|a t] eqn:E; [exact I |].
  rewrite <- head_reverse, E in Hl. injection Hl as ->. exact Hlc.
Qed.

End ExtractorMore.

Section ExtractorExtras.
Import Cleaner CleanerFacts CleanerMore Extractor ExtractorFacts ExtractorMore.

(** X3.  The title and the author follow their fallback lists: each is the
    trimmed text of the first selector of its list whose text is not blank
    (so it neither starts nor ends with white space), and is empty only when
    every selector of the list gives a blank text. *)
Theorem title_and_author_follow_fallback_order (doc : Document) :
  firstVisibleText doc titleSelectors (extractTitle doc)
  ∧ firstVisibleText doc authorSelectors (extractAuthor doc).
Proof. split; apply firstNonEmptyText_spec. Qed.

(** X4.  The meta line serves both as the second source of the publish date
    and as the first source of the author.  When the text of
    [#publish_time] yields no date and the text of [.rich_media_meta_text]
    parses as a date, the publish date is that date and the author is the
    very text the date was read from. *)
Theorem author_is_the_date_text (year : Z) (doc : Document) (d : DateParser.JsDate) :
  DateParser.parseChineseDate year (trim (firstText doc "#publish_time")) = None →
  DateParser.parseChineseDate year (trim (firstText doc ".rich_media_meta_text"))
    = Some d →
  extractPublishDate year doc = Some d
  ∧ extractAuthor doc = trim (firstText doc ".rich_media_meta_text").
Proof.
  intros Hfirst Hmeta.
  assert (Hne : truthy (trim (firstText doc ".rich_media_meta_text")) = true).
  { destruct (trim (firstText doc ".rich_media_meta_text")); [| reflexivity].
    rewrite parseChineseDate_empty in Hmeta. discriminate. }
  split.
  - unfold extractPublishDate, dateSelectors. simpl.
    rewrite Hfirst, Hne, Hmeta.
    destruct (truthy (trim (firstText doc "#publish_time"))); reflexivity.
  - unfold extractAuthor, authorSelectors. simpl. rewrite Hne. reflexivity.
Qed.

(** X4 on a page whose meta line reads [2024-03-15]. *)
Lemma author_is_the_date_text_witness :
  extractPublishDate 2026 datedPage = Some (DateParser.DateOf 2024 2 15)
  ∧ extractAuthor datedPage = js "2024-03-15".
Proof.
  apply (author_is_the_date_text 2026 datedPage (DateParser.DateOf 2024 2 15));
    reflexivity.
Defined.

Lemma keptBlocks_tight el : Forall tight (keptBlocks el).
Proof.
  apply Forall_forall. intros t Ht. unfold keptBlocks in Ht.
  apply list_elem_of_In, filter_In in Ht as [Hin Hlen].
  apply in_map_iff in Hin as (b & <- & _). apply trim_tight.
  intros E. rewrite E in Hlen. discriminate.
Qed.

Lemma contentFrom_first doc before sel after el :
  Forall (λ s, firstElement doc s = None) before →
  firstElement doc sel = Some el →
  contentFrom doc (before ++ sel :: after) = contentOfElement el.
Proof.
  intros Hb Hsel. induction Hb as [|s before Hs _ IH]; simpl.
  - rewrite Hsel. reflexivity.
  - rewrite Hs. exact IH.
Qed.

Lemma cleaned_kept_blocks (el : ContentElement) :
  keptBlocks el ≠ [] →
  cleanContent (contentOfElement el)
  = take maxContentLength
      (Summarizer.join [SPACE] (List.map collapseWhitespace (keptBlocks el))).
Proof.
  intros Hne. pose proof (keptBlocks_tight el) as Htight.
  assert (Hcontent : contentOfElement el
                     = concat (List.map (λ t, t ++ [LF; LF]) (keptBlocks el))).
  { unfold contentOfElement. rewrite fold_appendBlock. simpl. fold (keptBlocks el).
    destruct (keptBlocks el) as [|t ts]; [congruence |].
    inversion Htight as [|? ? [(c & r & -> & _) _] _]; subst. reflexivity. }
  rewrite Hcontent, cleanContent_unfold. f_equal.
  unfold collapseWhitespace at 1. rewrite (collapse_paragraphs _ Htight).
  assert (Hmap : List.map (λ t, collapseWhitespace t ++ [SPACE]) (keptBlocks el)
                 = List.map (λ t, t ++ [SPACE])
                     (List.map collapseWhitespace (keptBlocks el)))
    by (rewrite List.map_map; reflexivity).
  rewrite Hmap.
  assert (Hne' : List.map collapseWhitespace (keptBlocks el) ≠ [])
    by (destruct (keptBlocks el); [congruence | discriminate]).
  rewrite (join_spaced _ Hne'). apply trim_tight_space, join_tight; [exact Hne' |].
  apply Forall_forall. intros t Ht.
  apply list_elem_of_In, in_map_iff in Ht as (t0 & <- & Hin).
  apply collapse_tight. rewrite Forall_forall in Htight.
  apply Htight, list_elem_of_In, Hin.
Qed.

(** X5.  The content comes from the first content container that exists on
    the page.  When that container holds at least one paragraph of more
    than ten characters, the cleaned content is made of those paragraphs
    only: each one trimmed, with its inner white space collapsed, joined by
    single spaces, and the whole cut at 15000 characters. *)
Theorem cleaned_content_is_the_kept_paragraphs
    (doc : Document) (before after : list String.string) (sel : String.string)
    (el : ContentElement) :
  contentSelectors = before ++ sel :: after →
  Forall (λ s, firstElement doc s = None) before →
  firstElement doc sel = Some el →
  keptBlocks el ≠ [] →
  cleanContent (extractContent doc)
  = take maxContentLength
      (Summarizer.join [SPACE] (List.map collapseWhitespace (keptBlocks el))).
Proof.
  intros Hsels Hbefore Hsel Hkept. unfold extractContent.
  rewrite Hsels, (contentFrom_first _ _ _ _ _ Hbefore Hsel).
  apply cleaned_kept_blocks, Hkept.
Qed.

(** X5 on the page of four short paragraphs. *)
Lemma cleaned_content_is_the_kept_paragraphs_witness :
  cleanContent (extractContent fourParagraphs)
  = js "Hello world Hello world Hello world Hello world".
Proof.
  rewrite (cleaned_content_is_the_kept_paragraphs fourParagraphs []
             [".rich_media_content"; ".weui-article__bd"]%string
             "#js_content"%string
             {| blocks := replicate 4 (js "Hello world");
                fullText := js "Hello worldHello worldHello worldHello world" |});
    [reflexivity | reflexivity | constructor | reflexivity
     | vm_compute; discriminate].
Defined.

End ExtractorExtras.

(** ** Batch Fetcher: requests, pauses and the validity of a link *)

Module FetcherMore.
Import Extractor ExtractorFacts Fetcher FetcherFacts.

Lemma pausesIn_app evs1 evs2 : pausesIn (evs1 ++ evs2) = pausesIn evs1 ++ pausesIn evs2.
Proof. apply omap_app. Qed.

Lemma pausesIn_gets l : pausesIn (EvGet <$> l) = [].
Proof. induction l as [|u l IH]; simpl; [reflexivity | exact IH]. Qed.

Lemma length_windowsOf2 (l : list jsstring) :
  length (windowsOf2 l) = ((length l + 1) / 2)%nat.
Proof.
  rewrite <- Nat.div2_div, Nat.add_1_r.
  induction l as [| a | a b l IH] using list_pair_ind; simpl; [reflexivity ..|].
  rewrite IH. reflexivity.
Qed.

Lemma windowsOf2_nonempty (l : list jsstring) : Forall (λ w, w ≠ []) (windowsOf2 l).
Proof.
  eapply Forall_impl; [apply windowsOf2_sizes |].
  intros w Hw ->. simpl in Hw. lia.
Qed.

(** The events of a run of windows: the requests of each window, one pause
    between two windows, none after the last. *)
Lemma runWindows_events P ws tr :
  Forall (λ w, w ≠ []) ws →
  ∃ evs, (runWindows P ws tr).2 = tr ++ evs
         ∧ requested evs = concat ws
         ∧ pausesIn evs = replicate (length ws - 1) windowDelay
         ∧ endsWithRequest evs.
Proof.
  intros Hne. revert tr. induction Hne as [|w ws Hw Hws IH]; intros tr; simpl.
  - exists []. rewrite app_nil_r. repeat split. left. reflexivity.
  - rewrite !bind_run. simpl. rewrite mapIO_extract_trace.
    destruct ws as [|w' ws'].
    + exists (EvGet <$> w). simpl. rewrite app_nil_r.
      repeat split; [apply requested_gets | apply pausesIn_gets |].
      right. destruct (last w) as [u|] eqn:E.
      * exists u. rewrite fmap_last, E. reflexivity.
      * apply last_None in E. congruence.
    + destruct (IH ((tr ++ (EvGet <$> w)) ++ [EvDelay windowDelay]))
        as (evs & Htr & Hreq & Hp & Hend).
      exists ((EvGet <$> w) ++ [EvDelay windowDelay] ++ evs).
      change (paceBefore (w' :: ws') (tr ++ (EvGet <$> w))).2
        with ((tr ++ (EvGet <$> w)) ++ [EvDelay windowDelay]).
      rewrite Htr, <- !app_assoc. split; [reflexivity |].
      rewrite !requested_app, !pausesIn_app, requested_gets, pausesIn_gets, Hreq, Hp.
      simpl. rewrite Nat.sub_0_r. repeat split.
      destruct Hend as [-> | (u & Hu)].
      * simpl in Hreq. inversion Hws as [|? ? Hw' _]; subst.
        destruct w'; [congruence | discriminate Hreq].
      * right. exists u. apply last_Some in Hu as [evs' ->].
        apply last_Some. exists ((EvGet <$> w) ++ EvDelay windowDelay :: evs').
        rewrite <- app_assoc. reflexivity.
Qed.

Lemma startsWith_prefix p s : startsWith p s = true ↔ ∃ rest, s = p ++ rest.
Proof.
  revert s. induction p as [|a p IH]; intros s; simpl.
  - split; [eauto | reflexivity].
  - destruct s as [|b s].
    + split; [discriminate | intros (rest & H); discriminate].
    + rewrite andb_true_iff, N.eqb_eq, IH. split.
      * intros [-> (rest & ->)]. eauto.
      * intros (rest & H). injection H as -> ->. eauto.
Qed.

End FetcherMore.

Section FetcherExtras.
Import Extractor ExtractorFacts Fetcher FetcherFacts FetcherMore.

Lemma runWindows_exact_trace P ws tr :
  (runWindows P ws tr).2 = tr ++ windowEvents ws.
Proof.
  revert tr. induction ws as [|w ws IH]; intros tr; simpl.
  - rewrite app_nil_r. reflexivity.
  - rewrite !bind_run. simpl. rewrite mapIO_extract_trace, IH.
    destruct ws as [|w' ws']; simpl.
    + rewrite !app_nil_r. reflexivity.
    + rewrite <- !app_assoc. reflexivity.
Qed.

(** X6.  What the Batch Fetcher does on the network, event by event: the
    valid URLs of the input are taken two at a time in input order (a URL
    given twice is requested twice); the requests of a window are made,
    then, if another window follows, a pause of 3000 ms is taken before its
    requests.  So there is one request per valid URL, one pause fewer than
    there are windows, and the activity never ends with a pause. *)
Theorem fetcher_requests_and_pauses (P : Platform) (urls : list jsstring) (tr : Trace) :
  let valid := List.filter (isWeChatArticleUrl P) urls in
  (extractBatchWeChatArticles P urls tr).2 = tr ++ windowEvents (windowsOf2 valid)
  ∧ concat (windowsOf2 valid) = valid
  ∧ Forall (λ w, (1 ≤ length w ≤ 2)%nat) (windowsOf2 valid)
  ∧ ∃ evs,
      (extractBatchWeChatArticles P urls tr).2 = tr ++ evs
      ∧ requested evs = valid
      ∧ pausesIn evs = replicate ((length valid + 1) / 2 - 1) 3000%nat
      ∧ endsWithRequest evs.
Proof.
  simpl. rewrite extractBatch_windows. simpl.
  split; [apply runWindows_exact_trace |].
  split; [apply concat_windowsOf2 |]. split; [apply windowsOf2_sizes |].
  destruct (runWindows_events P _ tr (windowsOf2_nonempty
              (List.filter (isWeChatArticleUrl P) urls)))
    as (evs & Htr & Hreq & Hp & Hend).
  exists evs. rewrite concat_windowsOf2 in Hreq. rewrite length_windowsOf2 in Hp.
  auto.
Qed.

(** X7.  A link is accepted exactly when it parses as a URL whose host name
    is [mp.weixin.qq.com] and whose path is [/s/] followed by anything.  In
    particular a link whose path is just [/s] (the article identified by
    the query string) is refused. *)
Theorem article_url_criterion (P : Platform) (u : jsstring) :
  (isWeChatArticleUrl P u = true ↔
   ∃ o rest, parseURL P u = Some o
             ∧ hostname o = js "mp.weixin.qq.com"
             ∧ pathname o = js "/s/" ++ rest)
  ∧ (∀ o, parseURL P u = Some o → pathname o = js "/s" →
          isWeChatArticleUrl P u = false).
Proof.
  unfold isWeChatArticleUrl, jsstring_eqb. split.
  - destruct (parseURL P u) as [o|].
    + rewrite andb_true_iff, bool_decide_eq_true, startsWith_prefix. split.
      * intros [Hh (rest & Hp)]. exists o, rest. auto.
      * intros (o' & rest & [= <-] & Hh & Hp). eauto.
    + split; [discriminate | intros (o & rest & H & _); discriminate].
  - intros o -> Hp. rewrite Hp. apply andb_false_r.
Qed.

End FetcherExtras.

(** ** Batch Orchestrator: what each outcome leaves behind *)

Module OrchestratorMore.
Import Orchestrator OrchestratorFacts.


(** The state after an iteration in which nothing fails. *)
Lemma processArticle_success sv acct k article st r :
  hasError article = false →
  summarizeArticle sv k (Extractor.title article) (Extractor.content article) = inl r →
  prismaFault sv k UpsertAccount = None →
  prismaFault sv k UpsertArticle = None →
  prismaFault sv k UpsertSummary = None →
  let account := (upsertAccount (db st) acct).1 in
  let d1 := (upsertAccount (db st) acct).2 in
  let saved := upsertArticle d1 (Extractor.url article)
                 (articleData sv k OnUpdate acct (accountRowId account) article)
                 (articleData sv k OnCreate acct (accountRowId account) article) in
  processArticle sv acct k article st
  = {| db := upsertSummary saved.2 (articleId saved.1) r;
       results := results st
         ++ [{| entryUrl := Extractor.url article;
                entryTitle := Extractor.title article;
                entrySummary := Some r; entryError := None |}];
       successCount := S (successCount st); failCount := failCount st;
       pauses := S (pauses st) |}.
Proof.
  intros He Hs Ha Hb Hc. simpl. unfold processArticle. rewrite He, Hs, Ha.
  destruct (upsertAccount (db st) acct) as [account d1]. rewrite Hb. simpl.
  destruct (upsertArticle d1 _ _ _) as [saved d2]. rewrite Hc. reflexivity.
Qed.

(** Each entry of the report carries the URL and the title of the result
    it was made from. *)
Lemma processArticle_entry sv acct k article st :
  ∃ e, results (processArticle sv acct k article st) = results st ++ [e]
       ∧ entryUrl e = Extractor.url article
       ∧ entryTitle e = Extractor.title article.
Proof.
  unfold processArticle, summaryFailed, failureEntry.
  repeat match goal with
         | |- context [if ?b then _ else _] => destruct b eqn:?
         | |- context [match ?x with _ => _ end] => destruct x eqn:?
         end; simpl; eexists; (split; [reflexivity |]); simpl; auto.
Qed.

Lemma processAll_entries sv acct k articles st :
  List.map entryUrl (results (processAll sv acct k articles st))
    = List.map entryUrl (results st) ++ List.map Extractor.url articles
  ∧ List.map entryTitle (results (processAll sv acct k articles st))
    = List.map entryTitle (results st) ++ List.map Extractor.title articles.
Proof.
  revert k st. induction articles as [|a l IH]; intros k st; simpl.
  - rewrite !app_nil_r. auto.
  - destruct (IH (S k) (processArticle sv acct k a st)) as [-> ->].
    destruct (processArticle_entry sv acct k a st) as (e & -> & <- & <-).
    rewrite !List.map_app, <- !app_assoc. auto.
Qed.

Lemma processArticle_pauses sv acct k article st :
  pauses (processArticle sv acct k article st)
  = (pauses st + if hasError article then 0 else 1)%nat.
Proof.
  unfold processArticle, summaryFailed.
  repeat match goal with
         | |- context [if ?b then _ else _] => destruct b eqn:?
         | |- context [match ?x with _ => _ end] => destruct x eqn:?
         end; simpl; lia.
Qed.

Lemma processAll_pauses sv acct k articles st :
  pauses (processAll sv acct k articles st)
  = (pauses st + length (List.filter (λ a, negb (hasError a)) articles))%nat.
Proof.
  revert k st. induction articles as [|a l IH]; intros k st; simpl; [lia |].
  rewrite IH, processArticle_pauses. destruct (hasError a); simpl; lia.
Qed.


(** The route on a list of 1 to 20 URLs. *)
Lemma postBatchSummarize_run sv urls acct d tr :
  (0 < length urls ≤ 20)%nat →
  postBatchSummarize sv {| bodyUrls := UrlsArray urls; bodyAccountName := acct |} d tr
  = let out := Fetcher.extractBatchWeChatArticles (platform sv) urls tr in
    let st := processAll sv (default DEFAULT_ACCOUNT acct) 0 out.1
                {| db := d; results := []; successCount := 0; failCount := 0;
                   pauses := 0 |} in
    (Status200 {| success := true; reportResults := results st;
                  totalProcessed := length urls;
                  reportSuccessCount := successCount st;
                  reportFailCount := failCount st |}, db st, out.2).
Proof.
  intros [Hpos Hmax]. unfold postBatchSummarize. simpl.
  destruct (Nat.eqb_spec (length urls) 0) as [E|_]; [lia |].
  destruct (Nat.ltb_spec 20 (length urls)) as [E|_]; [lia |].
  rewrite FetcherFacts.bind_run. reflexivity.
Qed.

Lemma filter_partition_perm {A} (f : A → bool) (l : list A) :
  List.filter (λ x, negb (f x)) l ++ List.filter f l ≡ₚ l.
Proof.
  induction l as [|a l IH]; simpl; [reflexivity |].
  destruct (f a); simpl.
  - rewrite <- Permutation_middle. constructor. exact IH.
  - constructor. exact IH.
Qed.

End OrchestratorMore.

Section OrchestratorExtras.
Import Orchestrator OrchestratorFacts OrchestratorMore.




Lemma extractSingle_title P u tr :
  Extractor.title (Extractor.extractSingleWeChatArticle P u tr).1 ≠ [].
Proof.
  rewrite ExtractorFacts.extractSingle_run. simpl.
  destruct (httpGet P tr u) as [doc|e]; [| discriminate].
  unfold Extractor.extractFromDocument. destruct (_ || _); [discriminate |].
  simpl. unfold or_else. destruct (Extractor.extractTitle doc); discriminate.
Qed.

Lemma extractBatch_titles P urls tr :
  Forall (λ r, Extractor.title r ≠ [])
    (Fetcher.extractBatchWeChatArticles P urls tr).1.
Proof.
  rewrite FetcherFacts.extractBatch_windows. simpl. apply Forall_app. split.
  - apply Forall_forall. intros r Hr.
    apply list_elem_of_In, in_map_iff in Hr as (u & <- & _). discriminate.
  - apply FetcherFacts.runWindows_Forall. apply extractSingle_title.
Qed.

(** X9.  The report of a valid request lists the input URLs, each once per
    occurrence, the invalid ones first and then the valid ones, each group
    in input order; every entry has a title that is not empty. *)
Theorem report_lists_every_url
    (sv : Services) (urls : list jsstring) (acct : option jsstring)
    (d : Db) (tr : Trace) :
  (0 < length urls ≤ 20)%nat →
  ∃ report d' tr',
    postBatchSummarize sv {| bodyUrls := UrlsArray urls; bodyAccountName := acct |} d tr
      = (Status200 report, d', tr')
    ∧ List.map entryUrl (reportResults report)
      = List.filter (λ u, negb (Fetcher.isWeChatArticleUrl (platform sv) u)) urls
        ++ List.filter (Fetcher.isWeChatArticleUrl (platform sv)) urls
    ∧ List.map entryUrl (reportResults report) ≡ₚ urls
    ∧ Forall (λ e, entryTitle e ≠ []) (reportResults report).
Proof.
  intros Hlen. rewrite (postBatchSummarize_run _ _ _ _ _ Hlen). simpl.
  eexists _, _, _. split; [reflexivity |]. simpl.
  set (out := Fetcher.extractBatchWeChatArticles (platform sv) urls tr).
  destruct (processAll_entries sv (default DEFAULT_ACCOUNT acct) 0 out.1
              {| db := d; results := []; successCount := 0; failCount := 0;
                 pauses := 0 |}) as [Hu Ht].
  simpl in Hu, Ht.
  assert (Hurls : List.map Extractor.url out.1
                  = List.filter (λ u, negb (Fetcher.isWeChatArticleUrl (platform sv) u)) urls
                    ++ List.filter (Fetcher.isWeChatArticleUrl (platform sv)) urls)
    by apply FetcherFacts.extractBatch_urls.
  rewrite Hu, Hurls. split; [reflexivity |]. split; [apply filter_partition_perm |].
  apply Forall_forall. intros e He.
  apply (list_elem_of_fmap_2 entryTitle) in He.
  change (entryTitle <$> _) with (List.map entryTitle
    (results (processAll sv (default DEFAULT_ACCOUNT acct) 0 out.1
       {| db := d; results := []; successCount := 0; failCount := 0; pauses := 0 |}))) in He.
  rewrite Ht in He. apply list_elem_of_In, in_map_iff in He as (r & Hr & Hin).
  rewrite <- Hr. pose proof (extractBatch_titles (platform sv) urls tr) as Hall.
  rewrite Forall_forall in Hall. apply Hall, list_elem_of_In, Hin.
Qed.

(** X9 on one article link and one malformed URL. *)
Lemma report_lists_every_url_witness :
  ∃ report d' tr',
    postBatchSummarize (toyServices (λ _, Loaded fourParagraphs) (js "fine"))
      {| bodyUrls := UrlsArray [articleLink; js "not-a-url"];
         bodyAccountName := None |} emptyDb []
      = (Status200 report, d', tr')
    ∧ List.map entryUrl (reportResults report) = [js "not-a-url"; articleLink].
Proof.
  destruct (report_lists_every_url
              (toyServices (λ _, Loaded fourParagraphs) (js "fine"))
              [articleLink; js "not-a-url"] None emptyDb [])
    as (report & d' & tr' & Hrun & Hurls & _); [simpl; lia |].
  exists report, d', tr'. split; [exact Hrun | exact Hurls].
Defined.

(** X10.  The loop of the route pauses once for every result it hands to
    the summarizer, whether that succeeds or fails, and never for a result
    that already carries an extraction error. *)
Theorem route_pauses_once_per_summarized_article
    (sv : Services) (acct : jsstring) (k : nat)
    (articles : list Extractor.ExtractedWeChatArticle) (st : State) :
  pauses (processAll sv acct k articles st)
  = (pauses st + length (List.filter (λ a, negb (hasError a)) articles))%nat.
Proof. apply processAll_pauses. Qed.




End OrchestratorExtras.

Section PersistenceExtras.
Import Orchestrator OrchestratorFacts OrchestratorMore.

(** X12.  When the request to the model fails, the article is reported as a
    failure whose reason is the summary-failed prefix followed by the
    message of [summarizeArticle] (itself a prefix and the rendering of the
    cause); nothing is written to the store, and the pause is still
    taken. *)
Theorem summarizer_failure_reported
    (sv : Services) (acct : jsstring) (k : nat)
    (article : Extractor.ExtractedWeChatArticle) (st : State)
    (rendering : jsstring) :
  hasError article = false →
  llm sv k (Extractor.title article) (Extractor.content article)
    = LlmFails rendering →
  processArticle sv acct k article st
  = {| db := db st;
       results := results st
         ++ [failureEntry article
               (MSG_SUMMARY_FAILED ++ js "Failed to summarize article: "
                  ++ rendering)];
       successCount := successCount st; failCount := S (failCount st);
       pauses := S (pauses st) |}.
Proof.
  intros He Hl. unfold processArticle, summarizeArticle. rewrite He, Hl.
  reflexivity.
Qed.

(** X12 on services whose model never answers. *)
Lemma summarizer_failure_reported_witness :
  db (processArticle (silentServices (λ _, Loaded anonymousPage))
        DEFAULT_ACCOUNT 0 anonymousArticle freshState) = emptyDb
  ∧ failCount (processArticle (silentServices (λ _, Loaded anonymousPage))
                 DEFAULT_ACCOUNT 0 anonymousArticle freshState) = 1%nat.
Proof.
  rewrite (summarizer_failure_reported
             (silentServices (λ _, Loaded anonymousPage))
             DEFAULT_ACCOUNT 0 anonymousArticle freshState (js "Error: timeout"));
    [split; reflexivity | reflexivity | reflexivity].
Defined.

(** X13.  The article and its summary are written by two separate upserts.
    When the summary upsert fails after the article upsert succeeded, the
    article is reported as a failure although its row is already in the
    store, and the table of summaries is left as it was. *)
Theorem summary_fault_leaves_article_without_summary
    (sv : Services) (acct : jsstring) (k : nat)
    (article : Extractor.ExtractedWeChatArticle) (st : State)
    (r : Summarizer.SummaryResult) (e : Thrown) :
  hasError article = false →
  summarizeArticle sv k (Extractor.title article) (Extractor.content article) = inl r →
  prismaFault sv k UpsertAccount = None →
  prismaFault sv k UpsertArticle = None →
  prismaFault sv k UpsertSummary = Some e →
  let st' := processArticle sv acct k article st in
  (∃ row, storedArticle st' (Extractor.url article) = Some row
          ∧ articleTitle row = Extractor.title article
          ∧ articleContent row = Extractor.content article)
  ∧ summaries (db st') = summaries (db st)
  ∧ (∃ message, results st'
                = results st ++ [failureEntry article (MSG_SUMMARY_FAILED ++ message)])
  ∧ successCount st' = successCount st
  ∧ failCount st' = S (failCount st).
Proof.
  intros He Hs Ha Hb Hc. simpl. unfold storedArticle.
  rewrite (processArticle_persists sv acct k article st r He Hs Ha Hb).
  unfold processArticle, summaryFailed. rewrite He, Hs, Ha.
  unfold upsertAccount.
  destruct (accounts (db st) !! acct) as [account|]; rewrite Hb; simpl;
    unfold upsertArticle; simpl;
    destruct (articles (db st) !! Extractor.url article) as [old|]; simpl;
    rewrite Hc; simpl; rewrite lookup_insert_eq;
    (split; [eexists; split; [reflexivity | split; reflexivity] |]);
    (split; [reflexivity |]); (split; [eexists; reflexivity |]); auto.
Qed.

(** X13 on services whose store fails on the summary upsert. *)
Lemma summary_fault_leaves_article_without_summary_witness :
  let st' := processArticle
               (summaryFaultServices (λ _, Loaded anonymousPage) (js "fine"))
               DEFAULT_ACCOUNT 0 anonymousArticle freshState in
  (∃ row, storedArticle st' articleLink = Some row)
  ∧ summaries (db st') = ∅
  ∧ failCount st' = 1%nat.
Proof.
  destruct (summary_fault_leaves_article_without_summary
              (summaryFaultServices (λ _, Loaded anonymousPage) (js "fine"))
              DEFAULT_ACCOUNT 0 anonymousArticle freshState
              (Summarizer.fallbackParsing (js "fine"))
              (ErrorObject (js "connection lost")))
    as ((row & Hrow & _) & Hsum & _ & _ & Hfail);
    [reflexivity | reflexivity | reflexivity | reflexivity | reflexivity |].
  simpl. split; [exists row; exact Hrow |]. split; [exact Hsum | exact Hfail].
Defined.

(** X14.  The article upsert is keyed by the URL.  For an article that goes
    through, a row already stored under its URL is rewritten in place (it
    keeps its identifier and its URL, takes the new title and content, and
    the number of rows does not change), a new URL adds exactly one row,
    and the rows stored under other URLs are not touched. *)
Theorem article_upsert_in_place
    (sv : Services) (acct : jsstring) (k : nat)
    (article : Extractor.ExtractedWeChatArticle) (st : State)
    (r : Summarizer.SummaryResult) :
  hasError article = false →
  summarizeArticle sv k (Extractor.title article) (Extractor.content article) = inl r →
  prismaFault sv k UpsertAccount = None →
  prismaFault sv k UpsertArticle = None →
  let st' := processArticle sv acct k article st in
  (∃ row, storedArticle st' (Extractor.url article) = Some row
          ∧ articleTitle row = Extractor.title article
          ∧ articleContent row = Extractor.content article
          ∧ articleUrl row
            = (if storedArticle st (Extractor.url article) is Some old
               then articleUrl old else Extractor.url article)
          ∧ (∀ old, storedArticle st (Extractor.url article) = Some old →
                    articleId row = articleId old))
  ∧ size (articles (db st'))
    = (if storedArticle st (Extractor.url article) is Some _
       then size (articles (db st)) else S (size (articles (db st))))
  ∧ (∀ u, u ≠ Extractor.url article → storedArticle st' u = storedArticle st u).
Proof.
  intros He Hs Ha Hb. simpl. unfold storedArticle.
  rewrite (processArticle_persists sv acct k article st r He Hs Ha Hb).
  pose proof (upsertAccount_articles (db st) acct) as Hd1.
  destruct (upsertAccount (db st) acct) as [account d1]. simpl in *.
  rewrite upsertArticle_articles, lookup_insert_eq.
  unfold upsertArticle. rewrite Hd1.
  destruct (articles (db st) !! Extractor.url article) as [old|] eqn:Hold; simpl.
  - split; [| split].
    + eexists. split; [reflexivity |]. simpl. repeat split. intros ? [= <-]. reflexivity.
    + apply map_size_insert_Some. eauto.
    + intros u Hu. apply lookup_insert_ne. congruence.
  - split; [| split].
    + eexists. split; [reflexivity |]. simpl. repeat split. discriminate.
    + apply map_size_insert_None, Hold.
    + intros u Hu. apply lookup_insert_ne. congruence.
Qed.

(** X14: the same article processed twice leaves one row. *)
Lemma article_upsert_in_place_witness :
  let sv := toyServices (λ _, Loaded anonymousPage) (js "fine") in
  let once := processArticle sv DEFAULT_ACCOUNT 0 anonymousArticle freshState in
  size (articles (db (processArticle sv DEFAULT_ACCOUNT 1 anonymousArticle once)))
  = size (articles (db once)).
Proof.
  cbv zeta.
  destruct (article_upsert_in_place
              (toyServices (λ _, Loaded anonymousPage) (js "fine"))
              DEFAULT_ACCOUNT 1 anonymousArticle
              (processArticle (toyServices (λ _, Loaded anonymousPage) (js "fine"))
                 DEFAULT_ACCOUNT 0 anonymousArticle freshState)
              (Summarizer.fallbackParsing (js "fine")))
    as (_ & Hsize & _);
    [reflexivity | reflexivity | reflexivity | reflexivity | exact Hsize].
Defined.

(** X15.  What a fully successful iteration leaves behind: the account
    named by the label exists (an account that was already there is reused
    unchanged), the article row under the URL points to that account, the
    summary row under the identifier of that article holds the four fields
    of the summary, and the entry added to the report shows that same
    summary. *)
Theorem success_is_stored_as_reported
    (sv : Services) (acct : jsstring) (k : nat)
    (article : Extractor.ExtractedWeChatArticle) (st : State)
    (r : Summarizer.SummaryResult) :
  hasError article = false →
  summarizeArticle sv k (Extractor.title article) (Extractor.content article) = inl r →
  prismaFault sv k UpsertAccount = None →
  prismaFault sv k UpsertArticle = None →
  prismaFault sv k UpsertSummary = None →
  let st' := processArticle sv acct k article st in
  ∃ account row,
    accounts (db st') !! acct = Some account
    ∧ (∀ old, accounts (db st) !! acct = Some old → account = old)
    ∧ storedArticle st' (Extractor.url article) = Some row
    ∧ articleAccountId row = accountRowId account
    ∧ summaries (db st') !! articleId row
      = Some {| summaryArticleId := articleId row;
                summaryContent := Summarizer.content r;
                summaryKeyPoints := Summarizer.keyPoints r;
                summarySentiment := Summarizer.sentiment r;
                summaryCategory := Summarizer.category r |}
    ∧ results st'
      = results st ++ [{| entryUrl := Extractor.url article;
                          entryTitle := Extractor.title article;
                          entrySummary := Some r; entryError := None |}].
Proof.
  intros He Hs Ha Hb Hc. simpl.
  rewrite (processArticle_success sv acct k article st r He Hs Ha Hb Hc).
  unfold storedArticle. simpl.
  assert (Hacc : accounts (upsertAccount (db st) acct).2 !! acct
                 = Some (upsertAccount (db st) acct).1
                 ∧ ∀ old, accounts (db st) !! acct = Some old →
                          (upsertAccount (db st) acct).1 = old).
  { unfold upsertAccount. destruct (accounts (db st) !! acct) as [old|] eqn:E; simpl.
    - split; [exact E | intros ? [= <-]; reflexivity].
    - rewrite lookup_insert_eq. split; [reflexivity | discriminate]. }
  destruct Hacc as [Hacc Hold].
  destruct (upsertAccount (db st) acct) as [account d1]. simpl in *.
  exists account.
  eexists (upsertArticle d1 (Extractor.url article) _ _).1.
  rewrite upsertArticle_articles, !lookup_insert_eq.
  split; [rewrite upsertArticle_accounts; exact Hacc |].
  split; [exact Hold |]. split; [reflexivity |].
  split; [| split; reflexivity].
  unfold upsertArticle. destruct (articles d1 !! Extractor.url article); reflexivity.
Qed.

(** X15 on a fresh store. *)
Lemma success_is_stored_as_reported_witness :
  let st' := processArticle (toyServices (λ _, Loaded anonymousPage) (js "fine"))
               DEFAULT_ACCOUNT 0 anonymousArticle freshState in
  ∃ account row,
    accounts (db st') !! DEFAULT_ACCOUNT = Some account
    ∧ storedArticle st' articleLink = Some row
    ∧ articleAccountId row = accountRowId account
    ∧ is_Some (summaries (db st') !! articleId row).
Proof.
  destruct (success_is_stored_as_reported
              (toyServices (λ _, Loaded anonymousPage) (js "fine"))
              DEFAULT_ACCOUNT 0 anonymousArticle freshState
              (Summarizer.fallbackParsing (js "fine")))
    as (account & row & Hacc & _ & Hrow & Hlink & Hsum & _);
    [reflexivity | reflexivity | reflexivity | reflexivity | reflexivity |].
  exists account, row. split; [exact Hacc |]. split; [exact Hrow |].
  split; [exact Hlink | eexists; exact Hsum].
Defined.

End PersistenceExtras.

(** ** Summarizer Client: the batch helper and the parsed answer *)

Module SummarizerMore.
Import Summarizer SummarizerFacts Orchestrator BatchSummarizer.

Lemma batchSummarizeFrom_lookup sv k articles acc id :
  summarized (batchSummarizeFrom sv k articles acc) !! id
  = match lastSuccessFrom sv k articles id with
    | Some r => Some r
    | None => summarized acc !! id
    end.
Proof.
  revert k acc. induction articles as [|a more IH]; intros k acc; simpl; [reflexivity |].
  rewrite IH. destruct (lastSuccessFrom sv (S k) more id) as [r|]; [reflexivity |].
  unfold summarizeOne, jsstring_eqb.
  destruct (summarizeArticle sv k (inputTitle a) (inputContent a)) as [r|e]; simpl.
  - rewrite lookup_insert. destruct (decide (inputId a = id)) as [E|E].
    + rewrite bool_decide_eq_true_2 by exact E. reflexivity.
    + rewrite bool_decide_eq_false_2 by exact E. reflexivity.
  - destruct (bool_decide (inputId a = id)); reflexivity.
Qed.

Lemma batchSummarizeFrom_waits sv k articles acc :
  waits (batchSummarizeFrom sv k articles acc)
  = (waits acc + successesFrom sv k articles)%nat.
Proof.
  revert k acc. induction articles as [|a more IH]; intros k acc; simpl; [lia |].
  rewrite IH. unfold summarizeOne.
  destruct (summarizeArticle sv k (inputTitle a) (inputContent a)); simpl; lia.
Qed.

Lemma lastSuccessFrom_absent sv k articles id :
  id ∉ List.map inputId articles → lastSuccessFrom sv k articles id = None.
Proof.
  revert k. induction articles as [|a more IH]; intros k Hid; simpl; [reflexivity |].
  rewrite IH by (intros H; apply Hid; right; exact H).
  unfold jsstring_eqb. rewrite bool_decide_eq_false_2; [reflexivity |].
  intros E. apply Hid. rewrite <- E. left.
Qed.

Lemma propertyOr_cases members key dflt :
  jsonTruthy (propertyOr members key dflt) = true
  ∨ propertyOr members key dflt = dflt.
Proof.
  unfold propertyOr. destruct (property members (js key)) as [v|]; [| auto].
  destruct (jsonTruthy v) eqn:E; auto.
Qed.

End SummarizerMore.

Section SummarizerExtras.
Import Summarizer SummarizerFacts Orchestrator BatchSummarizer SummarizerMore.

(** X16.  [batchSummarize] never fails.  The map it returns holds, for an
    identifier, the summary of the last article with that identifier whose
    call succeeded, and nothing for an identifier whose calls all failed or
    that is not in the batch; one pause is taken per successful call and
    none after a failed one. *)
Theorem batchSummarize_keeps_last_success
    (sv : Services) (articles : list ArticleInput) (id : jsstring) :
  summarized (batchSummarize sv articles) !! id = lastSuccessFrom sv 0 articles id
  ∧ waits (batchSummarize sv articles) = successesFrom sv 0 articles
  ∧ (id ∉ List.map inputId articles →
     summarized (batchSummarize sv articles) !! id = None).
Proof.
  unfold batchSummarize.
  assert (H : summarized (batchSummarizeFrom sv 0 articles
                            {| summarized := ∅; waits := 0 |}) !! id
              = lastSuccessFrom sv 0 articles id).
  { rewrite batchSummarizeFrom_lookup. simpl. rewrite lookup_empty.
    destruct (lastSuccessFrom sv 0 articles id); reflexivity. }
  split; [exact H |]. split; [apply batchSummarizeFrom_waits |].
  intros Hid. rewrite H. apply lastSuccessFrom_absent, Hid.
Qed.

(** X17.  The text handed to [JSON.parse] runs from the first opening brace
    of the answer to its last closing brace; there is none exactly when no
    closing brace comes after an opening brace. *)
Theorem json_text_spans_first_to_last_brace (response : jsstring) :
  match jsonMatch response with
  | Some text =>
      ∃ pre mid post,
        response = pre ++ text ++ post ∧ text = LBRACE :: mid ++ [RBRACE]
        ∧ (LBRACE ∉ pre) ∧ (RBRACE ∉ post)
  | None =>
      ¬ ∃ pre mid post, response = pre ++ [LBRACE] ++ mid ++ [RBRACE] ++ post
  end.
Proof.
  destruct (jsonMatch response) as [text|] eqn:E.
  - apply jsonMatch_Some, E.
  - apply jsonMatch_None, E.
Qed.

(** X18.  Whatever the answer, the parsed result has key points, a
    sentiment and a category that are not empty values; its summary can be
    the empty string, and only when a JSON object was parsed. *)
Theorem parsed_result_is_populated
    (JSON_parse : jsstring → option (list (jsstring * Json)))
    (response : jsstring) :
  let r := parseSummaryResponse JSON_parse response in
  jsonTruthy (keyPoints r) = true
  ∧ jsonTruthy (sentiment r) = true
  ∧ jsonTruthy (category r) = true
  ∧ (jsonTruthy (content r) = true
     ∨ (content r = JString []
        ∧ ∃ text parsed, jsonMatch response = Some text
                         ∧ JSON_parse text = Some parsed)).
Proof.
  assert (Hfb : ∀ s, let r := fallbackParsing s in
                 jsonTruthy (keyPoints r) = true ∧ jsonTruthy (sentiment r) = true
                 ∧ jsonTruthy (category r) = true ∧ jsonTruthy (content r) = true).
  { intros s. unfold fallbackParsing.
    cbn [keyPoints sentiment category content jsonTruthy]. repeat split.
    match goal with |- truthy (?x ++ _) = true => destruct x; reflexivity end. }
  simpl. unfold parseSummaryResponse.
  destruct (jsonMatch response) as [text|] eqn:Em;
    [| destruct (Hfb response) as (?&?&?&?); auto].
  destruct (JSON_parse text) as [parsed|] eqn:Ep;
    [| destruct (Hfb response) as (?&?&?&?); auto].
  simpl. repeat split.
  - destruct (propertyOr_cases parsed "keyPoints" (JArray [])) as [H| ->]; auto.
  - destruct (propertyOr_cases parsed "sentiment" (JString (js "neutral")))
      as [H| ->]; auto.
  - destruct (propertyOr_cases parsed "category" (JString UNCATEGORIZED))
      as [H| ->]; auto.
  - destruct (propertyOr_cases parsed "summary" (JString [])) as [H| ->];
      [left; exact H | right].
    split; [reflexivity |]. exists text, parsed. split; [reflexivity | exact Ep].
Qed.

(** X19.  The key points of the fallback are lines of the answer, in the
    order of the answer: they form a subsequence of the lines at which the
    answer splits, and these lines joined by line feeds are the answer. *)
Theorem fallback_key_points_are_lines (response : jsstring) :
  ∃ points,
    keyPoints (fallbackParsing response) = JArray (List.map JString points)
    ∧ points `sublist_of` splitLines response
    ∧ join [LF] (splitLines response) = response
    ∧ Forall (λ line, LF ∉ line) (splitLines response).
Proof.
  eexists. split; [reflexivity |]. split; [| split].
  - etransitivity; [apply sublist_take |].
    clear. induction (splitLines response) as [|l ls IH]; simpl; [constructor |].
    destruct (truthy (trim l)); [constructor; exact IH | apply sublist_cons; exact IH].
  - apply join_splitLines.
  - apply splitLines_no_LF.
Qed.

End SummarizerExtras.

(** ** The form of the client *)

Module ClientMore.
Import Summarizer SummarizerFacts Orchestrator OrchestratorFacts OrchestratorMore Client.








End ClientMore.

Section ClientExtras.
Import Summarizer SummarizerFacts Orchestrator OrchestratorFacts OrchestratorMore.
Import Client ClientMore.



End ClientExtras.

(** ** Date Parser: what a match is and what it yields *)

Module DateParserMore.
Import DateParser DateParserFacts.

Lemma digitValue_bounds c : isDigit c = true → (0 ≤ digitValue c ≤ 9)%Z.
Proof.
  unfold isDigit, digitValue. rewrite andb_true_iff, !N.leb_le. lia.
Qed.

(** The value of a group of one or two digits, and of four digits. *)
Lemma parseInt_two d :
  Forall (λ c, isDigit c = true) d → (1 ≤ length d ≤ 2)%nat →
  (0 ≤ parseInt d ≤ 99)%Z.
Proof.
  intros Hd Hlen. destruct d as [|a [|b [|c d]]]; simpl in Hlen; try lia.
  - inversion Hd as [|? ? Ha _]; subst. apply digitValue_bounds in Ha.
    unfold parseInt. simpl. lia.
  - inversion Hd as [|? ? Ha Hd']; subst. inversion Hd' as [|? ? Hb _]; subst.
    apply digitValue_bounds in Ha, Hb. unfold parseInt. simpl. lia.
Qed.

Lemma parseInt_four d :
  Forall (λ c, isDigit c = true) d → (4 ≤ length d ≤ 4)%nat →
  (0 ≤ parseInt d ≤ 9999)%Z.
Proof.
  intros Hd Hlen. destruct d as [|a [|b [|c [|e [|f d]]]]]; simpl in Hlen; try lia.
  inversion Hd as [|? ? Ha Hd1]; subst. inversion Hd1 as [|? ? Hb Hd2]; subst.
  inversion Hd2 as [|? ? Hc Hd3]; subst. inversion Hd3 as [|? ? He _]; subst.
  apply digitValue_bounds in Ha, Hb, Hc, He. unfold parseInt. simpl. lia.
Qed.

Lemma Matches_groupsFit p w caps : Matches p w caps → groupsFit p caps.
Proof. induction 1; simpl; auto. Qed.

Lemma regexMatch_groupsFit p s m :
  regexMatch p s = Some m → ∃ w caps, m = w :: caps ∧ groupsFit p caps.
Proof.
  intros H. apply regexMatch_sound in H as (pre & w & post & caps & _ & Hw & ->).
  exists w, caps. split; [reflexivity | eapply Matches_groupsFit, Hw].
Qed.

(** Nothing matches at the head of the text when [matchHere] fails. *)
Lemma matchHere_None p s w post caps :
  matchHere p s = None → s = w ++ post → ¬ Matches p w caps.
Proof.
  intros Hnone -> Hw. destruct (matchHere_complete p w caps Hw post) as [x Hx].
  congruence.
Qed.

(** The match returned is the leftmost instance. *)
Lemma regexMatch_leftmost p s m :
  regexMatch p s = Some m →
  ∃ pre w post caps,
    s = pre ++ w ++ post ∧ m = w :: caps ∧ Matches p w caps
    ∧ ∀ pre' w' post' caps',
        s = pre' ++ w' ++ post' → Matches p w' caps' →
        (length pre ≤ length pre')%nat.
Proof.
  revert m. induction s as [|c s IH]; intros m; simpl.
  - destruct (matchHere p []) as [[caps rest]|] eqn:E; [| discriminate].
    intros [= <-]. apply matchHere_sound in E as (w & Hs & Hw).
    destruct w; [| discriminate]. simpl in Hs. subst rest.
    exists [], [], [], caps. repeat split; [exact Hw |]. intros; simpl; lia.
  - destruct (matchHere p (c :: s)) as [[caps rest]|] eqn:E.
    + intros [= <-]. apply matchHere_sound in E as (w & Hs & Hw).
      exists [], w, rest, caps. simpl. split; [exact Hs |]. split.
      * f_equal. change (S (length s)) with (length (c :: s)). rewrite Hs.
        rewrite length_app.
        replace (length w + length rest - length rest)%nat with (length w) by lia.
        apply take_app_length.
      * split; [exact Hw | intros; lia].
    + intros H. destruct (IH m H) as (pre & w & post & caps & -> & -> & Hw & Hleft).
      exists (c :: pre), w, post, caps. repeat split; [exact Hw |].
      intros pre' w' post' caps' Hs Hw'. destruct pre' as [|c' pre''].
      * exfalso. exact (matchHere_None p _ w' post' caps' E Hs Hw').
      * simpl in Hs. injection Hs as -> Hs. simpl.
        specialize (Hleft pre'' w' post' caps' Hs Hw'). lia.
Qed.

End DateParserMore.

Section DateParserExtras.
Import DateParser DateParserFacts DateParserMore.

(** X22.  [s.match(p)] returns the leftmost instance of the pattern: the
    array holds the matched text and then its groups, the text is an
    instance of the pattern found in [s], and no instance starts earlier
    in [s]. *)
Theorem match_is_the_leftmost_instance (p : pattern) (s : jsstring) :
  match regexMatch p s with
  | Some m =>
      ∃ pre w post caps,
        s = pre ++ w ++ post ∧ m = w :: caps ∧ Matches p w caps
        ∧ ∀ pre' w' post' caps',
            s = pre' ++ w' ++ post' → Matches p w' caps' →
            (length pre ≤ length pre')%nat
  | None => ¬ Occurs p s
  end.
Proof.
  destruct (regexMatch p s) as [m|] eqn:E.
  - apply regexMatch_leftmost, E.
  - apply regexMatch_None_iff, E.
Qed.

(** X23.  The parser checks the shape of a date, not its range.  A parsed
    date is always built from year, month and day; its year is the current
    year or lies between 0 and 9999, its month index between -1 and 98 and
    its day between 0 and 99. *)
Theorem parsed_date_components_bounded (year : Z) (s : jsstring) :
  match parseChineseDate year s with
  | Some (DateOf y m d) =>
      (y = year ∨ (0 ≤ y ≤ 9999)%Z) ∧ (-1 ≤ m ≤ 98)%Z ∧ (0 ≤ d ≤ 99)%Z
  | Some (ClockReading _) => False
  | None => True
  end.
Proof.
  rewrite parseChineseDate_cascade.
  destruct (regexMatch pattern1 s) as [m1|] eqn:E1.
  { apply regexMatch_groupsFit in E1 as (w & caps & -> & Hfit).
    destruct caps as [|y [|m [|d [|]]]]; simpl in Hfit; try tauto.
    destruct Hfit as (Hy & Hly & Hm & Hlm & Hd & Hld & _).
    pose proof (parseInt_four _ Hy Hly). pose proof (parseInt_two _ Hm Hlm).
    pose proof (parseInt_two _ Hd Hld). unfold group. simpl. lia. }
  destruct (regexMatch pattern2 s) as [m2|] eqn:E2.
  { apply regexMatch_groupsFit in E2 as (w & caps & -> & Hfit).
    destruct caps as [|y [|m [|d [|]]]]; simpl in Hfit; try tauto.
    destruct Hfit as (Hy & Hly & Hm & Hlm & Hd & Hld & _).
    pose proof (parseInt_four _ Hy Hly). pose proof (parseInt_two _ Hm Hlm).
    pose proof (parseInt_two _ Hd Hld). unfold group. simpl. lia. }
  destruct (regexMatch pattern3 s) as [m3|] eqn:E3; [| exact I].
  apply regexMatch_groupsFit in E3 as (w & caps & -> & Hfit).
  destruct caps as [|m [|d [|]]]; simpl in Hfit; try tauto.
  destruct Hfit as (Hm & Hlm & Hd & Hld & _).
  pose proof (parseInt_two _ Hm Hlm). pose proof (parseInt_two _ Hd Hld).
  unfold group. simpl. lia.
Qed.

(** X24.  The current year is used only as a last resort: when the text
    holds a date with a four-digit year, in either form, the result does
    not depend on the current year; when it holds neither form but a month
    and a day, the result is a date of the current year. *)
Theorem current_year_is_the_last_resort (s : jsstring) :
  (Occurs pattern1 s ∨ Occurs pattern2 s →
   ∀ year1 year2, parseChineseDate year1 s = parseChineseDate year2 s)
  ∧ (¬ Occurs pattern1 s → ¬ Occurs pattern2 s → Occurs pattern3 s →
     ∀ year, ∃ m d, parseChineseDate year s = Some (DateOf year m d)).
Proof.
  split.
  - intros Hocc year1 year2. rewrite !parseChineseDate_cascade.
    destruct (regexMatch pattern1 s) as [m1|] eqn:E1; [reflexivity |].
    destruct (regexMatch pattern2 s) as [m2|] eqn:E2; [reflexivity |].
    apply regexMatch_None_iff in E1, E2. tauto.
  - intros H1 H2 H3 year. rewrite parseChineseDate_cascade.
    apply regexMatch_None_iff in H1, H2. rewrite H1, H2.
    apply regexMatch_complete in H3 as [m Hm]. rewrite Hm. eauto.
Qed.

End DateParserExtras.

(** ** The history route: paging *)

Module HistoryMore.
Import History.

Lemma digitOf_decimal radix c :
  DateParser.isDigit c = true → digitOf radix c = Some (DateParser.digitValue c).
Proof. unfold DateParser.isDigit, digitOf. intros ->. reflexivity. Qed.

Lemma digitsValue_digits s acc :
  Forall (λ c, DateParser.isDigit c = true) s →
  digitsValue 10 s (Some acc)
  = Some (fold_left (λ a c, 10 * a + DateParser.digitValue c)%Z s acc).
Proof.
  intros Hs. revert acc. induction Hs as [|c s Hc _ IH]; intros acc; simpl;
    [reflexivity |].
  rewrite (digitOf_decimal _ _ Hc). simpl. apply IH.
Qed.

Lemma isDigit_not_space c : DateParser.isDigit c = true → isWhiteSpace c = false.
Proof.
  unfold DateParser.isDigit, isWhiteSpace. rewrite andb_true_iff, !N.leb_le.
  intros [H1 H2].
  repeat match goal with
         | |- context [(?a <=? ?b)] => destruct (N.leb_spec a b); try lia
         | |- context [(?a =? ?b)] => destruct (N.eqb_spec a b); try lia
         end; reflexivity.
Qed.

Lemma queryNumber_nonzero q dflt : dflt ≠ 0%Z → queryNumber q dflt ≠ 0%Z.
Proof.
  intros Hd. unfold queryNumber. destruct q as [s|]; [| exact Hd].
  destruct (parseInt s) as [v|]; [| exact Hd].
  destruct (Z.eqb_spec v 0); [exact Hd | assumption].
Qed.

Lemma roundToDouble_exact z :
  (Z.abs z ≤ 2 ^ 53)%Z → roundToDouble z = z.
Proof.
  intros H. destruct (Z.lt_ge_cases (Z.abs z) (2 ^ 53)) as [Hlt | Hge].
  - unfold roundToDouble. apply Z.ltb_lt in Hlt. rewrite Hlt. reflexivity.
  - assert (Hz : z = (2 ^ 53)%Z ∨ z = (- 2 ^ 53)%Z) by lia.
    destruct Hz as [-> | ->]; reflexivity.
Qed.

Lemma roundToDouble_error z :
  (Z.abs (roundToDouble z - z) * 2 ^ 53 ≤ Z.abs z)%Z.
Proof.
  unfold roundToDouble. destruct (Z.ltb_spec (Z.abs z) (2 ^ 53)) as [Hlt | Hge].
  { rewrite Z.sub_diag. simpl. lia. }
  set (a := Z.abs z) in *. cbv zeta.
  assert (Ha : (0 < a)%Z) by (change (2 ^ 53)%Z with 9007199254740992%Z in Hge; lia).
  pose proof (Z.log2_spec a Ha) as [Hlo _].
  assert (H53 : (53 ≤ Z.log2 a)%Z).
  { change 53%Z with (Z.log2 (2 ^ 53)). apply Z.log2_le_mono, Hge. }
  set (e := (Z.log2 a - 52)%Z) in *.
  assert (He : (Z.log2 a = 53 + (e - 1))%Z) by (unfold e; lia).
  rewrite He, Z.pow_add_r in Hlo by lia.
  assert (HP : (2 ^ e = 2 * 2 ^ (e - 1))%Z).
  { replace e with (1 + (e - 1))%Z at 1 by lia. rewrite Z.pow_add_r by lia.
    reflexivity. }
  assert (Hh : (0 < 2 ^ (e - 1))%Z) by (apply Z.pow_pos_nonneg; lia).
  pose proof (Z.div_mod a (2 ^ e) ltac:(lia)) as Hdm.
  pose proof (Z.mod_pos_bound a (2 ^ e) ltac:(lia)) as Hm.
  set (q := (a / 2 ^ e)%Z) in *. set (r := (a mod 2 ^ e)%Z) in *.
  set (h := (2 ^ (e - 1))%Z) in *. rewrite HP in *. clearbody q r h.
  change (2 ^ 53)%Z with 9007199254740992%Z in *.
  assert (Hz : (Z.sgn z = 1 ∧ z = a)%Z ∨ (Z.sgn z = -1 ∧ z = - a)%Z)
    by (unfold a in *; lia).
  assert (Hgoal : ∀ q', (Z.abs (q' * (2 * h) - a) ≤ h)%Z →
            (Z.abs (Z.sgn z * (q' * (2 * h)) - z) * 9007199254740992 ≤ a)%Z).
  { intros q' Hq'. destruct Hz as [[-> Hz] | [-> Hz]]; rewrite Hz at 1; lia. }
  apply Hgoal.
  destruct (Z.ltb_spec r h); [lia |].
  destruct (Z.ltb_spec h r); [lia |].
  destruct (Z.even q); lia.
Qed.

End HistoryMore.

Section HistoryExtras.
Import History HistoryMore.

Lemma parseInt_decimal (s : jsstring) :
  s ≠ [] → Forall (λ c, DateParser.isDigit c = true) s →
  parseInt s = Some (DateParser.parseInt s).
Proof.
  intros Hne Hs. destruct s as [|c s]; [congruence |].
  inversion Hs as [|? ? Hc Hs']; subst.
  unfold parseInt. rewrite trimStart_fixed by (simpl; apply isDigit_not_space, Hc).
  assert (H45 : (c =? 45) = false).
  { unfold DateParser.isDigit in Hc. apply andb_true_iff in Hc as [H1 _].
    apply N.leb_le in H1. apply N.eqb_neq. lia. }
  assert (H43 : (c =? 43) = false).
  { unfold DateParser.isDigit in Hc. apply andb_true_iff in Hc as [H1 _].
    apply N.leb_le in H1. apply N.eqb_neq. lia. }
  rewrite H45, H43.
  assert (Hradix : match c :: s with
                   | z :: x :: rest =>
                       if (z =? 48) && ((x =? 120) || (x =? 88)) then (16%Z, rest)
                       else (10%Z, c :: s)
                   | _ => (10%Z, c :: s)
                   end = (10%Z, c :: s)).
  { destruct s as [|x rest]; [reflexivity |].
    inversion Hs' as [|? ? Hx _]; subst.
    unfold DateParser.isDigit in Hx. apply andb_true_iff in Hx as [_ H2].
    apply N.leb_le in H2.
    assert ((x =? 120) = false) as -> by (apply N.eqb_neq; lia).
    assert ((x =? 88) = false) as -> by (apply N.eqb_neq; lia).
    rewrite andb_false_r. reflexivity. }
  rewrite Hradix. simpl digitsValue. rewrite (digitOf_decimal _ _ Hc). simpl.
  rewrite (digitsValue_digits _ _ Hs'). unfold DateParser.parseInt. simpl.
  f_equal. lia.
Qed.

(** X25.  A page or a limit written with decimal digits only (at most 15
    of them) and not zero is taken as written: the handler uses the number
    those digits spell, the same one the date parser reads from such a
    group. *)
Theorem history_reads_decimal_parameters
    (s : jsstring) (other : option jsstring) :
  s ≠ [] → Forall (λ c, DateParser.isDigit c = true) s →
  (length s ≤ 15)%nat → DateParser.parseInt s ≠ 0%Z →
  page (paging (Some s) other) = DateParser.parseInt s
  ∧ limit (paging other (Some s)) = DateParser.parseInt s.
Proof.
  intros Hne Hs _ Hnz. simpl. unfold queryNumber.
  rewrite (parseInt_decimal s Hne Hs).
  destruct (Z.eqb_spec (DateParser.parseInt s) 0); [congruence | auto].
Qed.

(** X25 on the text [25]. *)
Lemma history_reads_decimal_parameters_witness :
  page (paging (Some (js "25")) None) = 25%Z
  ∧ limit (paging None (Some (js "25"))) = 25%Z.
Proof.
  apply (history_reads_decimal_parameters (js "25") None).
  - discriminate.
  - repeat constructor.
  - simpl. lia.
  - vm_compute. discriminate.
Defined.

(** X26.  The page and the limit of the history route are never zero: an
    absent, unreadable or zero parameter gives page 1 and limit 20, so the
    number of pages is never a division by zero.  The rows skipped are
    those of the pages before, as JavaScript multiplies: exactly
    [(page - 1) * limit] when that product is at most 2^53 in absolute
    value, and otherwise the double nearest to it, which is off by at most
    one part in 2^53. *)
Theorem history_paging_never_zero (queryPage queryLimit : option jsstring) :
  (∀ s, queryPage = Some s → (length s ≤ 15)%nat) →
  (∀ s, queryLimit = Some s → (length s ≤ 15)%nat) →
  let p := paging queryPage queryLimit in
  page p ≠ 0%Z ∧ limit p ≠ 0%Z
  ∧ take p = limit p
  ∧ skip p = roundToDouble ((page p - 1) * limit p)
  ∧ ((Z.abs ((page p - 1) * limit p) ≤ 2 ^ 53)%Z →
     skip p = ((page p - 1) * limit p)%Z)
  ∧ (Z.abs (skip p - (page p - 1) * limit p) * 2 ^ 53
     ≤ Z.abs ((page p - 1) * limit p))%Z
  ∧ (queryPage = None ∨ (∃ s, queryPage = Some s ∧ parseInt s = None)
     ∨ (∃ s, queryPage = Some s ∧ parseInt s = Some 0%Z) → page p = 1%Z)
  ∧ (queryLimit = None ∨ (∃ s, queryLimit = Some s ∧ parseInt s = None)
     ∨ (∃ s, queryLimit = Some s ∧ parseInt s = Some 0%Z) → limit p = 20%Z).
Proof.
  intros _ _. cbv zeta. unfold paging. cbn [page limit skip take].
  split; [apply queryNumber_nonzero; discriminate |].
  split; [apply queryNumber_nonzero; discriminate |].
  split; [reflexivity |]. split; [reflexivity |].
  split; [apply roundToDouble_exact |].
  split; [apply roundToDouble_error |]. unfold queryNumber. split.
  - intros [-> | [(s & -> & ->) | (s & -> & ->)]]; reflexivity.
  - intros [-> | [(s & -> & ->) | (s & -> & ->)]]; reflexivity.
Qed.

(** X26 on an absent page and the limit [0]. *)
Lemma history_paging_never_zero_witness :
  page (paging None (Some (js "0"))) = 1%Z
  ∧ limit (paging None (Some (js "0"))) = 20%Z.
Proof.
  destruct (history_paging_never_zero None (Some (js "0")))
    as (_ & _ & _ & _ & _ & _ & Hp & Hl).
  - discriminate.
  - intros s [= <-]. simpl. lia.
  - split; [apply Hp; left; reflexivity |].
    apply Hl. right. right. exists (js "0"). split; reflexivity.
Defined.

(** X27.  For a positive limit and a count of rows that is not negative,
    the number of pages reported is the least number of pages of that size
    that hold all the rows. *)
Theorem history_pages_cover_the_rows (total limit : Z) :
  (0 < limit)%Z → (0 ≤ total < 2 ^ 53)%Z →
  (limit * (pages total limit - 1) < total ≤ limit * pages total limit)%Z.
Proof.
  intros Hl Ht. unfold pages.
  pose proof (Z.div_mod (- total) limit ltac:(lia)) as Hdm.
  pose proof (Z.mod_pos_bound (- total) limit Hl) as Hm.
  nia.
Qed.

(** X27 on 45 rows and pages of 20. *)
Lemma history_pages_cover_the_rows_witness :
  (20 * (pages 45 20 - 1) < 45 ≤ 20 * pages 45 20)%Z.
Proof. apply (history_pages_cover_the_rows 45 20); lia. Defined.

End HistoryExtras.
